(** * Accent trainer: the recording / analysis session of [App]

    A shallow embedding of the client of the accent trainer (the [App]
    component and [data/words.ts]) and the properties of its session
    lifecycle, fallback analysis, score, playback and resource handling.

    Layout: the reference data of [words.ts]; the JavaScript library
    functions the component calls ([join], [split], [trim], [||],
    binary64 arithmetic and [Math.round]); the state of the component
    (its [useState] cells, its refs, the closure memoised by
    [useCallback]) and of the browser objects it drives; one function per
    handler of the component; the events of the user interface with the
    guards the JSX puts on them; then the theorems.

    Conventions of the model:
    - a handler runs from one [await] to the next as one step, and the
      state updates it makes are applied together before the next render;
      what a handler awaits ([fetch], [response.json()], [audio.play()])
      comes back as a later event with its outcome, except the answer of
      [getUserMedia], which is taken with the click that asked for it;
    - a function defined in the body of [App] reads the variables of the
      render that created it; [startRecording] is the only memoised
      function that calls others, so the render it comes from is kept in
      the state ([memo]);
    - the object literals [phonemeInfo] and [substitutions] are finite
      maps from their own keys;
    - the score is computed in binary64, as JavaScript does; the values of
      [Math.random()] are read as rationals, see [gt];
    - the recorded bytes ([chunksRef], the [Blob]), the playback rates and
      the console are not modelled: no handler branches on them. *)

From Stdlib Require Import ZArith QArith Qround String Ascii List Lia.
From Stdlib Require Import Floats.SpecFloat.
From stdpp Require Import base option list gmap strings.

#[local] Set Warnings "-clear-no-such-hyp".

Open Scope string_scope.

(* ===================================================================== *)
(** ** Reference data ([data/words.ts]) *)
(* ===================================================================== *)

Record SentenceEntry := mkSentence {
  sentence : string;
  phonemes : list string;   (* expected phonemes, Allosaurus style *)
  ipa : string;             (* display IPA *)
}.

Definition sentenceList : list SentenceEntry := [
  mkSentence "The weather is nice."
    ["ð"; "ə"; "w"; "ɛ"; "ð"; "ə"; "ɪ"; "z"; "n"; "a"; "j"; "s"]
    "/ðə ˈwɛðər ɪz naɪs/";
  mkSentence "I think so."
    ["a"; "j"; "θ"; "ɪ"; "ŋ"; "k"; "s"; "o"; "w"]
    "/aɪ θɪŋk soʊ/";
  mkSentence "This is my brother."
    ["ð"; "ɪ"; "s"; "ɪ"; "z"; "m"; "a"; "j"; "b"; "ɹ"; "ʌ"; "ð"; "ə"]
    "/ðɪs ɪz maɪ ˈbrʌðər/";
  mkSentence "Where is the water?"
    ["w"; "ɛ"; "ɹ"; "ɪ"; "z"; "ð"; "ə"; "w"; "ɔ"; "t"; "ə"]
    "/wɛr ɪz ðə ˈwɔtər/";
  mkSentence "Three things matter."
    ["θ"; "ɹ"; "i"; "θ"; "ɪ"; "ŋ"; "z"; "m"; "æ"; "t"; "ə"]
    "/θri θɪŋz ˈmætər/";
  mkSentence "Thank you very much."
    ["θ"; "æ"; "ŋ"; "k"; "j"; "u"; "v"; "ɛ"; "ɹ"; "i"; "m"; "ʌ"; "tʃ"]
    "/θæŋk ju ˈvɛri mʌtʃ/";
  mkSentence "What do you think?"
    ["w"; "ʌ"; "t"; "d"; "u"; "j"; "u"; "θ"; "ɪ"; "ŋ"; "k"]
    "/wʌt du ju θɪŋk/";
  mkSentence "Father and mother."
    ["f"; "ɑ"; "ð"; "ə"; "æ"; "n"; "d"; "m"; "ʌ"; "ð"; "ə"]
    "/ˈfɑðər ænd ˈmʌðər/";
  mkSentence "Right or wrong?"
    ["ɹ"; "a"; "j"; "t"; "ɔ"; "ɹ"; "ɹ"; "ɔ"; "ŋ"]
    "/raɪt ɔr rɔŋ/";
  mkSentence "Hello world."
    ["h"; "ə"; "l"; "o"; "w"; "w"; "ɜ"; "ɹ"; "l"; "d"]
    "/həˈloʊ wɜrld/";
  mkSentence "Good morning."
    ["ɡ"; "ʊ"; "d"; "m"; "ɔ"; "ɹ"; "n"; "ɪ"; "ŋ"]
    "/ɡʊd ˈmɔrnɪŋ/";
  mkSentence "How are you?"
    ["h"; "a"; "w"; "ɑ"; "ɹ"; "j"; "u"]
    "/haʊ ɑr ju/"
].

Record PhonemeInfo := mkInfo {
  description : string;
  example : string;
  tip : string;
}.

(** The entries of the object literal [phonemeInfo], in source order. *)
Definition phonemeInfo_entries : list (string * PhonemeInfo) := [
  ("θ", mkInfo "Voiceless TH" "think, three, bath"
      "Put tongue between teeth, blow air without vibrating throat");
  ("ð", mkInfo "Voiced TH" "the, this, brother"
      "Put tongue between teeth, vibrate your throat");
  ("ɹ", mkInfo "American R" "red, right, car"
      "Curl tongue back, don't touch roof of mouth");
  ("ɚ", mkInfo "R-colored schwa" "water, butter, never"
      "Relaxed 'uh' + R sound combined");
  ("æ", mkInfo "Short A" "cat, man, hand"
      "Open mouth wide, tongue low and front");
  ("ʌ", mkInfo "Short U" "cup, love, mother"
      "Short, relaxed 'uh' in the middle of mouth");
  ("ɑ", mkInfo "Open A" "father, calm, spa"
      "Open mouth wide, tongue low and back");
  ("ɔ", mkInfo "Open O" "thought, caught, all"
      "Round lips slightly, back of tongue raised");
  ("ɛ", mkInfo "Short E" "bed, head, said"
      "Mouth slightly open, tongue mid-front");
  ("ɪ", mkInfo "Short I" "bit, will, this"
      "Short 'ih' sound, relaxed tongue");
  ("i", mkInfo "Long E" "see, we, easy"
      "Smile position, tongue high and front");
  ("u", mkInfo "Long U" "too, blue, through"
      "Round lips tightly, tongue high and back");
  ("ə", mkInfo "Schwa" "about, the, banana"
      "Most relaxed vowel, mouth barely open");
  ("ŋ", mkInfo "NG sound" "sing, thing, going"
      "Back of tongue touches soft palate");
  ("ʃ", mkInfo "SH sound" "she, fish, action"
      "Lips rounded, air through teeth gap");
  ("tʃ", mkInfo "CH sound" "church, watch, much"
      "Start with T, release into SH");
  ("w", mkInfo "W sound" "we, water, with"
      "Round lips tight, then open to vowel");
  ("v", mkInfo "V sound" "very, love, never"
      "Upper teeth on lower lip, vibrate throat");
  ("a", mkInfo "Open A / diphthong start" "my, high, time"
      "Start of 'ai' diphthong, open mouth");
  ("j", mkInfo "Y glide" "yes, you, beyond"
      "Like 'ee' but quickly glides to next sound");
  ("o", mkInfo "O sound" "go, so, no"
      "Round lips, back vowel");
  ("ɜ", mkInfo "UR vowel" "bird, world, hurt"
      "Like 'er' without the final R sound");
  ("ʊ", mkInfo "Short OO" "book, good, put"
      "Short, relaxed 'oo' sound");
  ("ɡ", mkInfo "G sound" "go, big, dog"
      "Back of tongue touches soft palate, voiced")
].

(** [phonemeInfo] is a [Record<string, ...>] read by key: a finite map. *)
Definition phonemeInfo : gmap string PhonemeInfo :=
  list_to_map phonemeInfo_entries.

(** [sentenceList[i]]; the component only ever indexes inside the list
    (lemma [reachable_sentencesKnown] below), outside it the empty entry
    stands for [undefined]. *)
Definition noSentence : SentenceEntry := mkSentence "" [] "".

Definition sentenceAt (i : nat) : SentenceEntry :=
  default noSentence (sentenceList !! i).

(* ===================================================================== *)
(** ** JavaScript library functions used by the component *)
(* ===================================================================== *)

Module JS.

(** Strings are kept as their UTF-8 bytes: equality of phoneme symbols,
    the search for [","] and the removal of white space do not depend
    on the encoding. *)

(** [a || b] on strings, where [a] may be [null] / [undefined]: the
    empty string is falsy. *)
Definition or (a : option string) (b : string) : string :=
  match a with
  | Some s => if decide (s = "") then b else s
  | None => b
  end.

(** [xs.join(sep)] *)
Definition join (sep : string) (xs : list string) : string :=
  String.concat sep xs.

(** [xs[i]] for the number [i] that [Math.floor] returned: [undefined]
    outside the array. *)
Definition index {A} (xs : list A) (i : Z) : option A :=
  if (i <? 0)%Z then None else xs !! Z.to_nat i.

(** [s.split(c)] for a one-character separator. The result is never
    empty, so it is returned as its element 0 and the elements after
    it. *)
Fixpoint split (c : ascii) (s : string) : string * list string :=
  match s with
  | EmptyString => (EmptyString, [])
  | String a s' =>
      let '(tok, rest) := split c s' in
      if decide (a = c) then (EmptyString, tok :: rest)
      else (String a tok, rest)
  end.

Definition bytes (codes : list nat) : string :=
  fold_right (fun n s => String (ascii_of_nat n) s) EmptyString codes.

(** White space and line terminators of ECMAScript, as UTF-8:
    TAB LF VT FF CR SP, U+00A0, U+1680, U+2000..U+200A, U+2028, U+2029,
    U+202F, U+205F, U+3000, U+FEFF. *)
Definition whiteSpace : list string :=
  map bytes
    ([[9]; [10]; [11]; [12]; [13]; [32]; [194; 160]; [225; 154; 128]]
     ++ map (fun k => [226; 128; 128 + k]) (seq 0 11)
     ++ [[226; 128; 168]; [226; 128; 169]; [226; 128; 175];
         [226; 129; 159]; [227; 128; 128]; [239; 187; 191]]).

Fixpoint stripPrefix (p s : string) : option string :=
  match p, s with
  | EmptyString, _ => Some s
  | String a p', String b s' =>
      if decide (a = b) then stripPrefix p' s' else None
  | String _ _, EmptyString => None
  end.

(** Removes one leading white-space character, if there is one. *)
Fixpoint stripOne (ws : list string) (s : string) : option string :=
  match ws with
  | [] => None
  | w :: ws' =>
      match stripPrefix w s with
      | Some s' => Some s'
      | None => stripOne ws' s
      end
  end.

(** Every stripped character shortens the string, so its length bounds
    the number of rounds. *)
Fixpoint stripAll (ws : list string) (fuel : nat) (s : string) : string :=
  match fuel with
  | O => s
  | S fuel' =>
      match stripOne ws s with
      | Some s' => stripAll ws fuel' s'
      | None => s
      end
  end.

Definition rev (s : string) : string :=
  string_of_list_ascii (List.rev (list_ascii_of_string s)).

Definition trimStart (s : string) : string :=
  stripAll whiteSpace (String.length s) s.

Definition trimEnd (s : string) : string :=
  rev (stripAll (map rev whiteSpace) (String.length s) (rev s)).

(** [s.trim()] *)
Definition trim (s : string) : string := trimEnd (trimStart s).

(** *** Numbers: IEEE 754 binary64 *)

Definition prec : Z := 53.
Definition emax : Z := 1024.

Definition number := spec_float.

(** The Number of an integer (array lengths, literals). *)
Definition ofZ (z : Z) : number := binary_normalize prec emax z 0 false.
Definition ofNat (n : nat) : number := ofZ (Z.of_nat n).

Definition div (x y : number) : number := SFdiv prec emax x y.
Definition mul (x y : number) : number := SFmul prec emax x y.

(** [Math.round(x)]: the integral Number closest to [x], ties towards
    +∞; NaN, the infinities and integral values are returned as they
    are. For a finite [x = ± m * 2^e] with [e < 0] the integer is
    [floor (x + 1/2) = floor ((± 2 m + 2^-e) / 2^(1 - e))], computed
    exactly. *)
Definition round (x : number) : number :=
  match x with
  | S754_finite s m e =>
      if (0 <=? e)%Z then x
      else
        let v := if s then Z.neg m else Z.pos m in
        let z := ((2 * v + 2 ^ (- e)) / 2 ^ (1 - e))%Z in
        binary_normalize prec emax z 0 s
  | _ => x
  end.

End JS.

(* ===================================================================== *)
(** ** The state of [App] *)
(* ===================================================================== *)

Record PhonemeResult := mkResult {
  expected : string;
  actual : option string;          (* [string | null] *)
  correct : bool;
}.

Module RecordingState.
Inductive t := idle | recording | processing | results.
End RecordingState.

Inductive ModelType := allosaurus | wav2vec2.

#[global] Instance RecordingState_eq_dec : EqDecision RecordingState.t.
Proof. solve_decision. Defined.

#[global] Instance ModelType_eq_dec : EqDecision ModelType.
Proof. solve_decision. Defined.

(** An object URL made by [URL.createObjectURL]; the browser hands out a
    new one at every call. *)
Definition Url := nat.

(** The [useState] cells, lines 15-22. *)
Record Session := mkSession {
  currentIndex : nat;
  recordingState : RecordingState.t;
  results : option (list PhonemeResult);
  rawPhonemes : string;
  hoveredPhoneme : option string;
  playingPhoneme : option string;
  model : ModelType;
  recordedAudioUrl : option Url;
}.

Definition setCurrentIndex (f : nat -> nat) (s : Session) : Session :=
  mkSession (f (currentIndex s)) (recordingState s) (results s) (rawPhonemes s)
    (hoveredPhoneme s) (playingPhoneme s) (model s) (recordedAudioUrl s).

Definition setRecordingState (v : RecordingState.t) (s : Session) : Session :=
  mkSession (currentIndex s) v (results s) (rawPhonemes s)
    (hoveredPhoneme s) (playingPhoneme s) (model s) (recordedAudioUrl s).

Definition setResults (v : option (list PhonemeResult)) (s : Session) : Session :=
  mkSession (currentIndex s) (recordingState s) v (rawPhonemes s)
    (hoveredPhoneme s) (playingPhoneme s) (model s) (recordedAudioUrl s).

Definition setRawPhonemes (v : string) (s : Session) : Session :=
  mkSession (currentIndex s) (recordingState s) (results s) v
    (hoveredPhoneme s) (playingPhoneme s) (model s) (recordedAudioUrl s).

Definition setHoveredPhoneme (v : option string) (s : Session) : Session :=
  mkSession (currentIndex s) (recordingState s) (results s) (rawPhonemes s)
    v (playingPhoneme s) (model s) (recordedAudioUrl s).

Definition setPlayingPhoneme (v : option string) (s : Session) : Session :=
  mkSession (currentIndex s) (recordingState s) (results s) (rawPhonemes s)
    (hoveredPhoneme s) v (model s) (recordedAudioUrl s).

Definition setModel (v : ModelType) (s : Session) : Session :=
  mkSession (currentIndex s) (recordingState s) (results s) (rawPhonemes s)
    (hoveredPhoneme s) (playingPhoneme s) v (recordedAudioUrl s).

Definition setRecordedAudioUrl (v : option Url) (s : Session) : Session :=
  mkSession (currentIndex s) (recordingState s) (results s) (rawPhonemes s)
    (hoveredPhoneme s) (playingPhoneme s) (model s) v.

(** What the functions defined in one render of [App] see of that render:
    [currentSentence] (line 29) and [model]. [processRecording] and
    [simulateResults] read both from the render that created them. *)
Record Closure := mkClosure {
  currentSentence : SentenceEntry;
  closure_model : ModelType;
}.

Definition render (s : Session) : Closure :=
  mkClosure (sentenceAt (currentIndex s)) (model s).

(** The [MediaRecorder] made by [startRecording]. Its [onstop] handler
    (lines 42-49) calls the [processRecording] of the render that made
    the [startRecording] in use. *)
Inductive RecorderState := rec_recording | rec_stopping | rec_inactive.

#[global] Instance RecorderState_eq_dec : EqDecision RecorderState.
Proof. solve_decision. Defined.

Record Recorder := mkRecorder {
  rec_closure : Closure;
  rec_state : RecorderState;
}.

(** An [Audio] element that is playing. Elements made by [playPhoneme]
    carry the [onended] handler of lines 140-143, the one made by
    [replayRecording] carries none. *)
Record Audio := mkAudio {
  audio_src : Url;
  audio_phoneme : bool;
}.

(** The browser objects the component acts on. *)
Record Browser := mkBrowser {
  liveUrls : list Url;         (* object URLs created and not revoked *)
  revokedUrls : list Url;      (* the calls of [URL.revokeObjectURL], latest first *)
  nextUrl : Url;
  nextAudio : nat;
  playingAudio : list (nat * Audio);   (* elements that are playing, by id *)
  speechQueue : list string;   (* utterances passed to [speechSynthesis.speak]
                                  and not ended; the first is being spoken *)
  openStreams : nat;           (* microphone streams whose tracks are live *)
  alerts : nat;                (* calls of [alert] *)
}.

Definition createObjectURL (b : Browser) : Url * Browser :=
  (nextUrl b,
   mkBrowser (nextUrl b :: liveUrls b) (revokedUrls b) (S (nextUrl b))
     (nextAudio b) (playingAudio b) (speechQueue b) (openStreams b) (alerts b)).

Definition revokeObjectURL (u : Url) (b : Browser) : Browser :=
  mkBrowser (List.filter (fun v => negb (Nat.eqb v u)) (liveUrls b))
    (u :: revokedUrls b) (nextUrl b)
    (nextAudio b) (playingAudio b) (speechQueue b) (openStreams b) (alerts b).

Definition setPlayingAudio (v : list (nat * Audio)) (b : Browser) : Browser :=
  mkBrowser (liveUrls b) (revokedUrls b) (nextUrl b)
    (nextAudio b) v (speechQueue b) (openStreams b) (alerts b).

(** [new Audio(src)]: the id of the new element. *)
Definition newAudio (b : Browser) : nat * Browser :=
  (nextAudio b,
   mkBrowser (liveUrls b) (revokedUrls b) (nextUrl b)
     (S (nextAudio b)) (playingAudio b) (speechQueue b) (openStreams b) (alerts b)).

(** [audio.play()] once it has resolved. *)
Definition play (id : nat) (a : Audio) (b : Browser) : Browser :=
  setPlayingAudio ((id, a) :: playingAudio b) b.

(** [audio.pause()], also the end of a playback. *)
Definition pause (id : nat) (b : Browser) : Browser :=
  setPlayingAudio (List.filter (fun e => negb (Nat.eqb (fst e) id)) (playingAudio b)) b.

Definition setSpeechQueue (v : list string) (b : Browser) : Browser :=
  mkBrowser (liveUrls b) (revokedUrls b) (nextUrl b)
    (nextAudio b) (playingAudio b) v (openStreams b) (alerts b).

(** [speechSynthesis.speak(utterance)] appends to the queue of the
    synthesiser. *)
Definition speak (text : string) (b : Browser) : Browser :=
  setSpeechQueue (speechQueue b ++ [text]) b.

Definition setOpenStreams (v : nat) (b : Browser) : Browser :=
  mkBrowser (liveUrls b) (revokedUrls b) (nextUrl b)
    (nextAudio b) (playingAudio b) (speechQueue b) v (alerts b).

Definition alert (b : Browser) : Browser :=
  mkBrowser (liveUrls b) (revokedUrls b) (nextUrl b)
    (nextAudio b) (playingAudio b) (speechQueue b) (openStreams b) (S (alerts b)).

(** The component, its refs and what it has in flight.

    [startRecording] is wrapped in [useCallback(..., [model])] (lines
    31-57): the function the record button calls is the one of the last
    render in which [model] changed (the first render before any change).
    [memo] is the closure of that render. *)
Record World := mkWorld {
  session : Session;
  memo : Closure;
  mediaRecorderRef : option Recorder;
  audioRef : option nat;
  playbackRef : option nat;
  analyzeRequest : option Closure;   (* the POST to /api/analyze in flight and
                                        the closure that resumes on its answer *)
  speakRequests : list string;       (* the POSTs to /api/speak in flight *)
  browser : Browser;
}.

Definition setSession (f : Session -> Session) (w : World) : World :=
  mkWorld (f (session w)) (memo w) (mediaRecorderRef w) (audioRef w)
    (playbackRef w) (analyzeRequest w) (speakRequests w) (browser w).

Definition setMemo (v : Closure) (w : World) : World :=
  mkWorld (session w) v (mediaRecorderRef w) (audioRef w)
    (playbackRef w) (analyzeRequest w) (speakRequests w) (browser w).

Definition setMediaRecorderRef (v : option Recorder) (w : World) : World :=
  mkWorld (session w) (memo w) v (audioRef w)
    (playbackRef w) (analyzeRequest w) (speakRequests w) (browser w).

Definition setAudioRef (v : option nat) (w : World) : World :=
  mkWorld (session w) (memo w) (mediaRecorderRef w) v
    (playbackRef w) (analyzeRequest w) (speakRequests w) (browser w).

Definition setPlaybackRef (v : option nat) (w : World) : World :=
  mkWorld (session w) (memo w) (mediaRecorderRef w) (audioRef w)
    v (analyzeRequest w) (speakRequests w) (browser w).

Definition setAnalyzeRequest (v : option Closure) (w : World) : World :=
  mkWorld (session w) (memo w) (mediaRecorderRef w) (audioRef w)
    (playbackRef w) v (speakRequests w) (browser w).

Definition setSpeakRequests (v : list string) (w : World) : World :=
  mkWorld (session w) (memo w) (mediaRecorderRef w) (audioRef w)
    (playbackRef w) (analyzeRequest w) v (browser w).

Definition setBrowser (f : Browser -> Browser) (w : World) : World :=
  mkWorld (session w) (memo w) (mediaRecorderRef w) (audioRef w)
    (playbackRef w) (analyzeRequest w) (speakRequests w) (f (browser w)).

Definition initialSession : Session :=
  mkSession 0 RecordingState.idle None "" None None allosaurus None.

Definition initialWorld : World :=
  mkWorld initialSession (render initialSession) None None None None []
    (mkBrowser [] [] 0 0 [] [] 0 0).

(* ===================================================================== *)
(** ** [Math.random] *)
(* ===================================================================== *)

(** A computation that calls [Math.random()]: it is given the number of
    calls made so far and returns the number after it. *)
Definition Rnd (A : Type) : Type := nat -> A * nat.

Definition ret {A} (a : A) : Rnd A := fun k => (a, k).

Definition bind {A B} (m : Rnd A) (f : A -> Rnd B) : Rnd B :=
  fun k => let '(a, k') := m k in f a k'.

Notation "x <- m ;; f" := (bind m (fun x => f))
  (at level 100, m at next level, right associativity).

Fixpoint mapM {A B} (f : A -> Rnd B) (xs : list A) : Rnd (list B) :=
  match xs with
  | [] => ret []
  | x :: xs' => y <- f x ;; ys <- mapM f xs' ;; ret (y :: ys)
  end.

(** [x > y] on the values of [Math.random()]. Such a value is a binary64
    in the interval from 0 (included) to 1 (excluded). It is compared
    with 0.25 and multiplied by the length, 2 or 3, of a list of
    alternates before [Math.floor]; it is read as the rational number it
    denotes and the product is taken exactly (the rounded product of a
    binary64 below 1 with 2 or 3 stays below 2 or 3, so the index is
    inside the list in both readings). *)
Definition gt (x y : Q) : bool := negb (Qle_bool x y).

Definition inUnitInterval (r : Q) : Prop := (0 <= r)%Q /\ (r < 1)%Q.

(* ===================================================================== *)
(** ** The handlers of [App] *)
(* ===================================================================== *)

(** The table of [getRandomSubstitution], lines 104-112: an object
    literal read by key, a finite map from its own keys. *)
Definition substitutions_entries : list (string * list string) := [
  ("θ", ["t"; "s"; "f"]);
  ("ð", ["d"; "z"; "v"]);
  ("ɹ", ["ɾ"; "l"; "w"]);
  ("æ", ["ɛ"; "a"; "e"]);
  ("ʌ", ["a"; "ə"; "o"]);
  ("v", ["w"; "b"; "f"]);
  ("w", ["v"; "u"])
].

Definition substitutions : gmap string (list string) :=
  list_to_map substitutions_entries.

Section Handlers.

(** The values [Math.random()] returns while one handler runs. *)
Variable rho : nat -> Q.

Definition Math_random : Rnd Q := fun k => (rho k, S k).

(** Lines 103-115. [None] is [undefined], the element of [subs] at an
    index outside it. *)
Definition getRandomSubstitution (phoneme : string) : Rnd (option string) :=
  match substitutions !! phoneme with
  | Some subs =>
      r <- Math_random ;;
      ret (JS.index subs (Qfloor (r * inject_Z (Z.of_nat (length subs)))))
  | None => ret (Some phoneme)
  end.

(** The callback of [map] in [simulateResults], lines 93-97: the fields
    of the object literal are evaluated in order. *)
Definition simulateEntry (p : string) : Rnd PhonemeResult :=
  keep <- Math_random ;;
  act <- (if gt keep (1 # 4) then ret (Some p) else getRandomSubstitution p) ;;
  right <- Math_random ;;
  ret (mkResult p act (gt right (1 # 4))).

Definition simulated (cl : Closure) : list PhonemeResult :=
  fst (mapM simulateEntry (phonemes (currentSentence cl)) 0).

(** Lines 92-101, in the render whose closure is [cl]. *)
Definition simulateResults (cl : Closure) (s : Session) : Session :=
  let simulated := simulated cl in
  let s := setResults (Some simulated) s in
  let s := setRawPhonemes
             (JS.join " " (map (fun r => JS.or (actual r) (expected r)) simulated)) s in
  setRecordingState RecordingState.results s.

End Handlers.

(** The body of a 2xx answer of /api/analyze after [response.json()]:
    [comparison], and [raw] or [phonemes]. *)
Record AnalyzeData := mkData {
  data_comparison : list PhonemeResult;
  data_raw : option string;
  data_phonemes : option (list string);
}.

(** How [await fetch('/api/analyze', ...)] and [await response.json()]
    end. *)
Inductive AnalyzeOutcome :=
| analyze_rejected                  (* [fetch] rejects: no answer *)
| analyze_not_ok                    (* an answer with [response.ok] false *)
| analyze_bad_json                  (* [response.json()] rejects *)
| analyze_json (data : AnalyzeData).

(** Lines 66-90 from the answer on, in the render whose closure is [cl].
    The part before [await fetch] builds the request from
    [currentSentence.phonemes] and [model] of [cl] and changes no state. *)
Definition processRecording (rho : nat -> Q) (cl : Closure)
    (o : AnalyzeOutcome) (s : Session) : Session :=
  match o with
  | analyze_json data =>
      let s := setResults (Some (data_comparison data)) s in
      (* [data.raw || data.phonemes.join(' ')] *)
      let truthy := match data_raw data with
                    | Some raw => if decide (raw = "") then None else Some raw
                    | None => None
                    end in
      match truthy, data_phonemes data with
      | Some raw, _ =>
          setRecordingState RecordingState.results (setRawPhonemes raw s)
      | None, Some ps =>
          setRecordingState RecordingState.results
            (setRawPhonemes (JS.join " " ps) s)
      | None, None => simulateResults rho cl s   (* TypeError, caught *)
      end
  | analyze_rejected | analyze_not_ok | analyze_bad_json =>
      simulateResults rho cl s
  end.

(** Lines 31-57, as memoised: [cl] is the closure of the render that made
    the function. [granted] tells whether the [try] block went through
    ([getUserMedia] resolved and the recorder started) or ended in the
    [catch]. *)
Definition startRecording (cl : Closure) (granted : bool) (w : World) : World :=
  if granted then
    let w := setBrowser (fun b => setOpenStreams (S (openStreams b)) b) w in
    let w := setMediaRecorderRef (Some (mkRecorder cl rec_recording)) w in
    setSession (setRecordingState RecordingState.recording) w
  else setBrowser alert w.

(** Lines 59-64. [stop()] on a recorder that is not recording throws, and
    the handler ends there. *)
Definition stopRecording (w : World) : World :=
  match mediaRecorderRef w with
  | Some r =>
      if decide (recordingState (session w) = RecordingState.recording) then
        if decide (rec_state r = rec_recording) then
          let w := setMediaRecorderRef (Some (mkRecorder (rec_closure r) rec_stopping)) w in
          setSession (setRecordingState RecordingState.processing) w
        else w
      else w
  | None => w
  end.

(** The [onstop] handler, lines 42-49, up to the [await fetch] of
    [processRecording]. *)
Definition onstop (r : Recorder) (w : World) : World :=
  let w := setMediaRecorderRef (Some (mkRecorder (rec_closure r) rec_inactive)) w in
  let w := setBrowser (fun b => setOpenStreams (Nat.pred (openStreams b)) b) w in
  let '(url, b) := createObjectURL (browser w) in
  let w := setBrowser (fun _ => b) w in
  let w := setSession (setRecordedAudioUrl (Some url)) w in
  setAnalyzeRequest (Some (rec_closure r)) w.

(** How the calls awaited in [playPhoneme] end. *)
Inductive SpeakOutcome :=
| speak_rejected        (* [fetch] or [response.blob()] rejects *)
| speak_not_ok          (* an answer with [response.ok] false *)
| speak_play_rejected   (* the audio arrived, [audio.play()] rejects *)
| speak_playing.        (* the audio arrived and plays *)

(** Line 118, up to [await fetch]. *)
Definition playPhoneme_begin (phoneme : string) (w : World) : World :=
  let w := setSession (setPlayingPhoneme (Some phoneme)) w in
  setSpeakRequests (speakRequests w ++ [phoneme]) w.

(** The word that is spoken for [info], line 152. *)
Definition exampleWord (info : PhonemeInfo) : string :=
  JS.trim (fst (JS.split "," (example info))).

(** Lines 150-159. *)
Definition playPhoneme_fallback (phoneme : string) (w : World) : World :=
  match phonemeInfo !! phoneme with
  | Some info => setBrowser (speak (exampleWord info)) w
  | None => setSession (setPlayingPhoneme None) w
  end.

(** Lines 128-136: the object URL, the pause of the element in
    [audioRef], the new element. *)
Definition playPhoneme_audio (w : World) : nat * Url * World :=
  let '(url, b) := createObjectURL (browser w) in
  let w := setBrowser (fun _ => b) w in
  let w := match audioRef w with
           | Some prev => setBrowser (pause prev) w
           | None => w
           end in
  let '(id, b) := newAudio (browser w) in
  let w := setBrowser (fun _ => b) w in
  (id, url, setAudioRef (Some id) w).

(** Lines 120-160 from the answer of /api/speak on. *)
Definition playPhoneme_resume (phoneme : string) (o : SpeakOutcome) (w : World) : World :=
  match o with
  | speak_playing =>
      let '(id, url, w) := playPhoneme_audio w in
      setBrowser (play id (mkAudio url true)) w
  | speak_play_rejected =>
      let '(_, _, w) := playPhoneme_audio w in
      playPhoneme_fallback phoneme w
  | speak_rejected | speak_not_ok => playPhoneme_fallback phoneme w
  end.

(** [audio.onended], lines 140-143. *)
Definition onended (a : Audio) (w : World) : World :=
  let w := setBrowser (revokeObjectURL (audio_src a)) w in
  setSession (setPlayingPhoneme None) w.

(** [utterance.onend], line 155. *)
Definition onend (w : World) : World :=
  setSession (setPlayingPhoneme None) w.

(** Lines 162-171. *)
Definition replayRecording (w : World) : World :=
  match recordedAudioUrl (session w) with
  | Some url =>
      let w := match playbackRef w with
               | Some prev => setBrowser (pause prev) w
               | None => w
               end in
      let '(id, b) := newAudio (browser w) in
      let w := setBrowser (fun _ => b) w in
      let w := setPlaybackRef (Some id) w in
      setBrowser (play id (mkAudio url false)) w
  | None => w
  end.

(** Lines 174 and 184: [if (recordedAudioUrl) URL.revokeObjectURL(recordedAudioUrl)]. *)
Definition releaseRecordedAudio (w : World) : World :=
  match recordedAudioUrl (session w) with
  | Some url => setBrowser (revokeObjectURL url) w
  | None => w
  end.

(** Lines 173-181. *)
Definition nextSentence (w : World) : World :=
  let w := releaseRecordedAudio w in
  let w := setSession (setRecordedAudioUrl None) w in
  let w := setSession (setCurrentIndex (fun prev => (prev + 1) mod length sentenceList)) w in
  let w := setSession (setRecordingState RecordingState.idle) w in
  let w := setSession (setResults None) w in
  let w := setSession (setRawPhonemes "") w in
  setSession (setHoveredPhoneme None) w.

(** Lines 183-190. *)
Definition resetSentence (w : World) : World :=
  let w := releaseRecordedAudio w in
  let w := setSession (setRecordedAudioUrl None) w in
  let w := setSession (setRecordingState RecordingState.idle) w in
  let w := setSession (setResults None) w in
  let w := setSession (setRawPhonemes "") w in
  setSession (setHoveredPhoneme None) w.

(** Lines 192-194. *)
Definition score (results : option (list PhonemeResult)) : JS.number :=
  match results with
  | Some results =>
      JS.round
        (JS.mul
           (JS.div (JS.ofNat (length (List.filter correct results)))
                   (JS.ofNat (length results)))
           (JS.ofNat 100))
  | None => JS.ofNat 0
  end.

(* ===================================================================== *)
(** ** The events of the user interface *)
(* ===================================================================== *)

(** What can happen to the component: the clicks and mouse moves the JSX
    of lines 196-499 binds to handlers, and the completions of what the
    handlers started. One event runs one handler to its next [await];
    the state updates of a handler are applied together, then [App]
    renders again. The answer of [getUserMedia] is part of the click that
    asked for it. *)
Inductive Event :=
| TapRecord (granted : bool)         (* the round button while not recording *)
| TapStop                            (* the round button while recording *)
| RecorderStopped                    (* the [stop] event of the recorder *)
| AnalyzeAnswer (o : AnalyzeOutcome) (rho : nat -> Q)
| TapTryAgain
| TapNext
| TapReplay
| SelectModel (m : ModelType)
| ClickActual (i : nat)              (* a button of the row "You said" *)
| ClickExpected (i : nat)            (* a button of the row "Expected" *)
| EnterActual (i : nat)
| EnterExpected (i : nat)
| MouseLeave
| SpeakAnswer (i : nat) (o : SpeakOutcome)   (* for the [i]-th request in flight *)
| AudioEnded (id : nat)
| UtteranceEnded.

(** Line 332: the results panel is rendered. *)
Definition resultsShown (s : Session) : bool :=
  bool_decide (recordingState s = RecordingState.results) && bool_decide (is_Some (results s)).

Definition resultAt (s : Session) (i : nat) : option PhonemeResult :=
  match results s with
  | Some rs => rs !! i
  | None => None
  end.

(** The guards: lines 255 and 278-279 for the round button, line 332 for
    the panel and its buttons, line 421 for "Replay". *)
Definition enabled (ev : Event) (w : World) : bool :=
  let s := session w in
  match ev with
  | TapRecord _ => bool_decide (recordingState s = RecordingState.idle)
  | TapStop => bool_decide (recordingState s = RecordingState.recording)
  | RecorderStopped =>
      match mediaRecorderRef w with
      | Some r => bool_decide (rec_state r = rec_stopping)
      | None => false
      end
  | AnalyzeAnswer _ _ => bool_decide (is_Some (analyzeRequest w))
  | TapTryAgain | TapNext | MouseLeave => resultsShown s
  | TapReplay => resultsShown s && bool_decide (is_Some (recordedAudioUrl s))
  | SelectModel _ => true
  | ClickActual i | ClickExpected i | EnterActual i | EnterExpected i =>
      resultsShown s && bool_decide (is_Some (resultAt s i))
  | SpeakAnswer i _ => bool_decide (is_Some (speakRequests w !! i))
  | AudioEnded id => bool_decide (is_Some (list_find (fun e => fst e = id) (playingAudio (browser w))))
  | UtteranceEnded => bool_decide (speechQueue (browser w) <> [])
  end.

Definition handler (ev : Event) (w : World) : World :=
  match ev with
  | TapRecord granted => startRecording (memo w) granted w
  | TapStop => stopRecording w
  | RecorderStopped =>
      match mediaRecorderRef w with
      | Some r => onstop r w
      | None => w
      end
  | AnalyzeAnswer o rho =>
      match analyzeRequest w with
      | Some cl => setAnalyzeRequest None (setSession (processRecording rho cl o) w)
      | None => w
      end
  | TapTryAgain => resetSentence w
  | TapNext => nextSentence w
  | TapReplay => replayRecording w
  | SelectModel m => setSession (setModel m) w
  | ClickActual i =>
      (* line 366: [result.actual && playPhoneme(result.actual)] *)
      match resultAt (session w) i with
      | Some r =>
          match actual r with
          | Some a => if decide (a = "") then w else playPhoneme_begin a w
          | None => w
          end
      | None => w
      end
  | ClickExpected i =>
      match resultAt (session w) i with
      | Some r => playPhoneme_begin (expected r) w
      | None => w
      end
  | EnterActual i =>
      match resultAt (session w) i with
      | Some r => setSession (setHoveredPhoneme (Some (JS.or (actual r) (expected r)))) w
      | None => w
      end
  | EnterExpected i =>
      match resultAt (session w) i with
      | Some r => setSession (setHoveredPhoneme (Some (expected r))) w
      | None => w
      end
  | MouseLeave => setSession (setHoveredPhoneme None) w
  | SpeakAnswer i o =>
      match speakRequests w !! i with
      | Some phoneme =>
          playPhoneme_resume phoneme o (setSpeakRequests (delete i (speakRequests w)) w)
      | None => w
      end
  | AudioEnded id =>
      match list_find (fun e => fst e = id) (playingAudio (browser w)) with
      | Some (_, (_, a)) =>
          let w := setBrowser (pause id) w in
          if audio_phoneme a then onended a w else w
      | None => w
      end
  | UtteranceEnded =>
      match speechQueue (browser w) with
      | _ :: rest => onend (setBrowser (setSpeechQueue rest) w)
      | [] => w
      end
  end.

(** The render after a handler: [useCallback(..., [model])] keeps the
    [startRecording] it has unless [model] differs from the render
    before. *)
Definition commit (before after : World) : World :=
  if decide (model (session before) = model (session after)) then after
  else setMemo (render (session after)) after.

Definition handle (ev : Event) (w : World) : World := commit w (handler ev w).

Inductive step (w : World) : World -> Prop :=
| step_event ev : enabled ev w = true -> step w (handle ev w).

Inductive reachable : World -> Prop :=
| reachable_initial : reachable initialWorld
| reachable_step w w' : reachable w -> step w w' -> reachable w'.

(** Runs a list of events; [None] when one of them is not enabled. *)
Fixpoint run (evs : list Event) (w : World) : option World :=
  match evs with
  | [] => Some w
  | ev :: evs' => if enabled ev w then run evs' (handle ev w) else None
  end.

(* ===================================================================== *)
(** ** Notions used in the statements *)
(* ===================================================================== *)






#[global] Instance number_eq_dec : EqDecision spec_float.
Proof. solve_decision. Defined.




(** The failures of the POST to /api/analyze: no answer, an answer that
    is not 2xx, a body that is not JSON. *)
Definition analyzeFailed (o : AnalyzeOutcome) : Prop :=
  o = analyze_rejected \/ o = analyze_not_ok \/ o = analyze_bad_json.


(** How many phoneme playbacks sound at the same time: the playing
    elements made by [playPhoneme], and the synthesiser when it has an
    utterance to speak. *)
Definition phonemeSounds (b : Browser) : nat :=
  length (List.filter (fun e => audio_phoneme (snd e)) (playingAudio b))
  + match speechQueue b with [] => 0 | _ :: _ => 1 end.


(** The object URLs: the counter is above every URL handed out, no URL is
    revoked twice or live after its release, the recording of the session
    ([recorded]) is live, and the clips of [playPhoneme] that play have
    URLs of their own. *)
Definition clipsOf (playing : list (nat * Audio)) : list Url :=
  map (fun e => audio_src (snd e))
      (List.filter (fun e => audio_phoneme (snd e)) playing).

Definition phonemeClips (b : Browser) : list Url := clipsOf (playingAudio b).

Definition owned (b : Browser) (recorded : option Url) : Prop :=
  Forall (fun u => u < nextUrl b) (liveUrls b)
  /\ Forall (fun u => u < nextUrl b) (revokedUrls b)
  /\ NoDup (revokedUrls b)
  /\ (forall u, u ∈ liveUrls b -> u ∉ revokedUrls b)
  /\ (forall u, recorded = Some u -> u ∈ liveUrls b)
  /\ NoDup (phonemeClips b)
  /\ (forall u, u ∈ phonemeClips b -> u ∈ liveUrls b /\ recorded <> Some u).

Definition urlsOwned (w : World) : Prop :=
  owned (browser w) (recordedAudioUrl (session w)).

(** The sentence indices stay inside the list, and so do the sentences
    of the closures in use. *)
Definition knownSentence (cl : Closure) : Prop :=
  exists i, sentenceList !! i = Some (currentSentence cl).

Definition sentencesKnown (w : World) : Prop :=
  currentIndex (session w) < length sentenceList
  /\ knownSentence (memo w)
  /\ (forall r, mediaRecorderRef w = Some r -> knownSentence (rec_closure r))
  /\ (forall cl, analyzeRequest w = Some cl -> knownSentence cl).

(** A sentence with at least one phoneme, none of them the empty string. *)
Definition goodSentence (s : SentenceEntry) : Prop :=
  phonemes s <> [] /\ Forall (fun p => p <> "") (phonemes s).

#[global] Instance goodSentence_dec s : Decision (goodSentence s).
Proof. unfold goodSentence. apply _. Defined.


(** *** Worlds and draws used as examples *)

(** The session on the last sentence of the list. *)
Definition lastSentenceWorld : World :=
  setSession (setCurrentIndex (fun _ => 11)) initialWorld.

(** [Math.random()] returning 0.5, and 0.1, at every call. *)
Definition drawsHalf : nat -> Q := fun _ => 1 # 2.
Definition drawsTenth : nat -> Q := fun _ => 1 # 10.

(** One attempt: record, stop, the recorder stops; then the answer. *)
Definition attempt : list Event := [TapRecord true; TapStop; RecorderStopped].

Definition attemptUnanswered : World :=
  default initialWorld (run attempt initialWorld).

Definition attemptFailed : World :=
  default initialWorld
    (run (attempt ++ [AnalyzeAnswer analyze_not_ok drawsTenth]) initialWorld).

(** A first attempt, "Next", and a second attempt whose POST fails. *)
Definition secondSentenceTrace : list Event :=
  attempt ++ [AnalyzeAnswer analyze_not_ok drawsHalf; TapNext]
  ++ attempt ++ [AnalyzeAnswer analyze_rejected drawsHalf].

(** The same with a switch of the model on the second sentence, before
    it is recorded. *)
Definition secondSentenceSwitchTrace : list Event :=
  attempt ++ [AnalyzeAnswer analyze_not_ok drawsHalf; TapNext; SelectModel wav2vec2]
  ++ attempt ++ [AnalyzeAnswer analyze_rejected drawsHalf].

Definition secondSentenceWorld : World :=
  default initialWorld (run secondSentenceTrace initialWorld).

Definition secondSentenceSwitchWorld : World :=
  default initialWorld (run secondSentenceSwitchTrace initialWorld).

(** The second sentence, "I think so.", recorded after a switch of the
    model, its analysis in flight. *)
Definition thinkSoUnanswered : World :=
  default initialWorld
    (run (attempt ++ [AnalyzeAnswer analyze_not_ok drawsHalf; TapNext; SelectModel wav2vec2]
          ++ attempt) initialWorld).

(** The first expected phoneme is played from the backend; while it
    plays the second is asked for and the backend fails. *)
Definition overlapTrace : list Event :=
  attempt ++ [AnalyzeAnswer analyze_not_ok drawsHalf;
              ClickExpected 0; SpeakAnswer 0 speak_playing;
              ClickExpected 1; SpeakAnswer 0 speak_not_ok].

Definition overlapWorld : World :=
  default initialWorld (run overlapTrace initialWorld).

(* ===================================================================== *)
(** ** Notions used in the further properties *)
(* ===================================================================== *)





(** The two playback channels: the playing elements have distinct ids
    below the counter; one made by [playPhoneme] is the element of
    [audioRef], one made by [replayRecording] the element of
    [playbackRef]; the two refs never hold the same element. *)
Definition channels (w : World) : Prop :=
  let b := browser w in
  NoDup (map fst (playingAudio b))
  /\ (forall id a, (id, a) ∈ playingAudio b ->
        id < nextAudio b
        /\ (if audio_phoneme a then audioRef w = Some id else playbackRef w = Some id))
  /\ (forall id, audioRef w = Some id -> id < nextAudio b)
  /\ (forall id, playbackRef w = Some id -> id < nextAudio b)
  /\ (forall id, audioRef w = Some id -> playbackRef w <> Some id).

Definition playingClips (w : World) : list (nat * Audio) :=
  List.filter (fun e => audio_phoneme (snd e)) (playingAudio (browser w)).

Definition playingReplays (w : World) : list (nat * Audio) :=
  List.filter (fun e => negb (audio_phoneme (snd e))) (playingAudio (browser w)).

(** An object URL that is live and that nothing refers to any more:
    neither the session nor a clip that plays. *)
Definition abandoned (u : Url) (w : World) : Prop :=
  u ∈ liveUrls (browser w)
  /\ recordedAudioUrl (session w) <> Some u
  /\ u ∉ phonemeClips (browser w).


(** The model does not differ between the session and the memoised
    closure. *)
Definition memoModel (w : World) : Prop :=
  closure_model (memo w) = model (session w).

(** A session in the state [results] whose recording is being replayed. *)
Definition replayingWorld : World :=
  default initialWorld
    (run (attempt ++ [AnalyzeAnswer analyze_not_ok drawsHalf; TapReplay]) initialWorld).

(** The clip of the first expected phoneme plays. *)
Definition clipPlayingWorld : World :=
  default initialWorld
    (run (attempt ++ [AnalyzeAnswer analyze_not_ok drawsHalf;
                      ClickExpected 0; SpeakAnswer 0 speak_playing; ClickExpected 1])
         initialWorld).

(* ===================================================================== *)
(** ** Next and try again *)
(* ===================================================================== *)

Section Navigation.

Lemma nextSentence_index w :
  currentIndex (session (nextSentence w))
  = (currentIndex (session w) + 1) mod length sentenceList.
Proof. unfold nextSentence, releaseRecordedAudio. by destruct (recordedAudioUrl _). Qed.

Lemma iter_nextSentence_index k w :
  currentIndex (session w) < length sentenceList ->
  currentIndex (session (Nat.iter k nextSentence w))
  = (currentIndex (session w) + k) mod length sentenceList.
Proof.
  intros Hi. induction k as [|k IH].
  - rewrite Nat.add_0_r, Nat.mod_small; done.
  - rewrite Nat.iter_succ, nextSentence_index, IH, Nat.Div0.add_mod_idemp_l.
    f_equal. lia.
Qed.

(** C9. "Next" maps the sentence index [i] to [(i + 1) mod count]; from
    the last index it goes to 0; and [count] times "next" from an index
    of the list comes back to it. *)
Theorem nextSentence_cyclic (w : World) :
  currentIndex (session w) < length sentenceList ->
  currentIndex (session (nextSentence w))
  = (currentIndex (session w) + 1) mod length sentenceList
  /\ (currentIndex (session w) = length sentenceList - 1 ->
      currentIndex (session (nextSentence w)) = 0)
  /\ currentIndex (session (Nat.iter (length sentenceList) nextSentence w))
     = currentIndex (session w).
Proof.
  intros Hi. split; [apply nextSentence_index|]. split.
  - intros Hlast. rewrite nextSentence_index, Hlast. reflexivity.
  - rewrite iter_nextSentence_index by done.
    rewrite <- (Nat.mul_1_l (length sentenceList)) at 1.
    rewrite Nat.Div0.mod_add. by apply Nat.mod_small.
Qed.

Lemma nextSentence_cyclic_witness :
  currentIndex (session lastSentenceWorld) < length sentenceList
  /\ currentIndex (session (nextSentence lastSentenceWorld)) = 0
  /\ currentIndex (session (Nat.iter 12 nextSentence lastSentenceWorld)) = 11.
Proof.
  assert (Hlt : currentIndex (session lastSentenceWorld) < length sentenceList)
    by (vm_compute; lia).
  destruct (nextSentence_cyclic lastSentenceWorld Hlt) as (_ & Hwrap & Hiter).
  split; [exact Hlt|]. split; [apply Hwrap; reflexivity | exact Hiter].
Defined.

(** C10. "Try again" keeps the sentence index and the model (and the
    playing marker); it clears the comparison, the raw output, the
    recorded-audio handle and the hovered phoneme and goes back to
    [idle]. Outside the session it touches the browser only, through
    the release of the recording. *)
Theorem resetSentence_frame (w : World) :
  session (resetSentence w)
  = mkSession (currentIndex (session w)) RecordingState.idle None "" None
      (playingPhoneme (session w)) (model (session w)) None
  /\ memo (resetSentence w) = memo w
  /\ mediaRecorderRef (resetSentence w) = mediaRecorderRef w
  /\ audioRef (resetSentence w) = audioRef w
  /\ playbackRef (resetSentence w) = playbackRef w
  /\ analyzeRequest (resetSentence w) = analyzeRequest w
  /\ speakRequests (resetSentence w) = speakRequests w.
Proof. unfold resetSentence, releaseRecordedAudio. by destruct (recordedAudioUrl _). Qed.

End Navigation.

(* ===================================================================== *)
(** ** The substitution heuristic *)
(* ===================================================================== *)

Section Substitution.

Lemma substitutions_entry phoneme subs :
  substitutions !! phoneme = Some subs -> (phoneme, subs) ∈ substitutions_entries.
Proof. apply elem_of_list_to_map_2. Qed.

Lemma substitutions_nonempty phoneme subs :
  substitutions !! phoneme = Some subs -> 0 < length subs.
Proof.
  intros H%substitutions_entry. unfold substitutions_entries in H.
  repeat (apply elem_of_cons in H as [H|H]; [injection H as -> ->; simpl; lia|]).
  by apply elem_of_nil in H.
Qed.

(** [Math.floor(r * n)] for a draw [r] is an index below [n]. *)
Lemma floor_index (r : Q) (n : nat) :
  inUnitInterval r -> 0 < n ->
  (0 <= Qfloor (r * inject_Z (Z.of_nat n)) < Z.of_nat n)%Z.
Proof.
  intros [Hlo Hhi] Hn.
  assert (Hn' : (0 < inject_Z (Z.of_nat n))%Q).
  { change 0%Q with (inject_Z 0). rewrite <- Zlt_Qlt. lia. }
  split.
  - change 0%Z with (Qfloor 0). apply Qfloor_resp_le.
    apply Qmult_le_0_compat; [done | by apply Qlt_le_weak].
  - rewrite Zlt_Qlt.
    eapply Qle_lt_trans; [apply Qfloor_le|].
    eapply Qlt_le_trans; [by apply Qmult_lt_compat_r|].
    apply Qle_lteq. right. apply Qmult_1_l.
Qed.

Lemma index_in_range {A} (xs : list A) (i : Z) :
  (0 <= i < Z.of_nat (length xs))%Z -> exists x, JS.index xs i = Some x /\ x ∈ xs.
Proof.
  intros [Hlo Hhi]. unfold JS.index.
  destruct (Z.ltb_spec i 0); [lia|].
  destruct (lookup_lt_is_Some_2 xs (Z.to_nat i)) as [x Hx]; [lia|].
  exists x. split; [done|]. by eapply list_elem_of_lookup_2.
Qed.

Lemma getRandomSubstitution_hit rho k phoneme subs :
  substitutions !! phoneme = Some subs -> inUnitInterval (rho k) ->
  exists s, fst (getRandomSubstitution rho phoneme k) = Some s /\ s ∈ subs.
Proof.
  intros Hsubs Hr. unfold getRandomSubstitution. rewrite Hsubs. cbn.
  apply index_in_range, floor_index; [done|]. by eapply substitutions_nonempty.
Qed.

Lemma getRandomSubstitution_miss rho k phoneme :
  substitutions !! phoneme = None ->
  getRandomSubstitution rho phoneme k = (Some phoneme, k).
Proof. intros H. unfold getRandomSubstitution. by rewrite H. Qed.



End Substitution.

(* ===================================================================== *)
(** ** Playback of a phoneme *)
(* ===================================================================== *)

Section Playback.







End Playback.

(* ===================================================================== *)
(** ** The score *)
(* ===================================================================== *)

Section Score.

(** *** binary64 facts *)









(** *** The score as a function of the two counts *)











End Score.

(* ===================================================================== *)
(** ** The lifecycle *)
(* ===================================================================== *)

Section Lifecycle.

(** [commit] only replaces the memoised closure. *)
Lemma commit_session a b : session (commit a b) = session b.
Proof. unfold commit. by case_decide. Qed.

Lemma commit_browser a b : browser (commit a b) = browser b.
Proof. unfold commit. by case_decide. Qed.

Lemma commit_analyzeRequest a b : analyzeRequest (commit a b) = analyzeRequest b.
Proof. unfold commit. by case_decide. Qed.

Lemma commit_mediaRecorderRef a b : mediaRecorderRef (commit a b) = mediaRecorderRef b.
Proof. unfold commit. by case_decide. Qed.



Lemma playPhoneme_audio_frame w :
  session (snd (playPhoneme_audio w)) = session w
  /\ analyzeRequest (snd (playPhoneme_audio w)) = analyzeRequest w
  /\ mediaRecorderRef (snd (playPhoneme_audio w)) = mediaRecorderRef w.
Proof. unfold playPhoneme_audio. cbn. by destruct (audioRef w). Qed.

Lemma playPhoneme_fallback_frame phoneme w :
  recordingState (session (playPhoneme_fallback phoneme w)) = recordingState (session w)
  /\ results (session (playPhoneme_fallback phoneme w)) = results (session w)
  /\ recordedAudioUrl (session (playPhoneme_fallback phoneme w)) = recordedAudioUrl (session w)
  /\ currentIndex (session (playPhoneme_fallback phoneme w)) = currentIndex (session w)
  /\ model (session (playPhoneme_fallback phoneme w)) = model (session w)
  /\ analyzeRequest (playPhoneme_fallback phoneme w) = analyzeRequest w
  /\ mediaRecorderRef (playPhoneme_fallback phoneme w) = mediaRecorderRef w
  /\ memo (playPhoneme_fallback phoneme w) = memo w.
Proof. unfold playPhoneme_fallback. by destruct (phonemeInfo !! phoneme). Qed.

Lemma playPhoneme_resume_frame phoneme o w :
  recordingState (session (playPhoneme_resume phoneme o w)) = recordingState (session w)
  /\ results (session (playPhoneme_resume phoneme o w)) = results (session w)
  /\ recordedAudioUrl (session (playPhoneme_resume phoneme o w)) = recordedAudioUrl (session w)
  /\ currentIndex (session (playPhoneme_resume phoneme o w)) = currentIndex (session w)
  /\ model (session (playPhoneme_resume phoneme o w)) = model (session w)
  /\ analyzeRequest (playPhoneme_resume phoneme o w) = analyzeRequest w
  /\ mediaRecorderRef (playPhoneme_resume phoneme o w) = mediaRecorderRef w
  /\ memo (playPhoneme_resume phoneme o w) = memo w.
Proof.
  destruct o; cbn [playPhoneme_resume]; try apply playPhoneme_fallback_frame.
  - unfold playPhoneme_audio. cbn.
    destruct (audioRef w); cbn;
      match goal with |- context [playPhoneme_fallback ?p ?x] =>
        pose proof (playPhoneme_fallback_frame p x) as H; cbn in H; exact H end.
  - unfold playPhoneme_audio. cbn. by destruct (audioRef w).
Qed.

Lemma processRecording_results rho cl o s :
  recordingState (processRecording rho cl o s) = RecordingState.results
  /\ is_Some (results (processRecording rho cl o s)).
Proof.
  destruct o as [| | |data]; cbn; eauto.
  destruct (data_raw data) as [raw|]; [destruct (decide (raw = ""))|];
    destruct (data_phonemes data); cbn; eauto.
Qed.





End Lifecycle.

(* ===================================================================== *)
(** ** The object URLs *)
(* ===================================================================== *)

Section Resources.

Implicit Types (b : Browser) (l : list (nat * Audio)) (u : Url).

Lemma filter_neq_elem (xs : list Url) u v :
  v ∈ List.filter (fun x => negb (Nat.eqb x u)) xs <-> v ∈ xs /\ v <> u.
Proof.
  rewrite !list_elem_of_In, filter_In, negb_true_iff, Nat.eqb_neq. done.
Qed.

Lemma clipsOf_remove_subset l id u :
  u ∈ clipsOf (List.filter (fun e => negb (Nat.eqb (fst e) id)) l) -> u ∈ clipsOf l.
Proof.
  unfold clipsOf. induction l as [|e l IH]; [done|]. cbn.
  destruct (Nat.eqb (fst e) id); cbn.
  - intros H. destruct (audio_phoneme (snd e)); cbn; [right|]; by apply IH.
  - destruct (audio_phoneme (snd e)); cbn; [|exact IH].
    rewrite !elem_of_cons. intros [->|H]; [by left|right; by apply IH].
Qed.

Lemma clipsOf_remove_NoDup l id :
  NoDup (clipsOf l) ->
  NoDup (clipsOf (List.filter (fun e => negb (Nat.eqb (fst e) id)) l)).
Proof.
  unfold clipsOf. induction l as [|e l IH]; [done|]. cbn.
  destruct (audio_phoneme (snd e)) eqn:Hp; cbn.
  - intros [Hnot Hnd]%NoDup_cons.
    destruct (Nat.eqb (fst e) id); cbn; [by apply IH|].
    rewrite Hp. cbn. apply NoDup_cons. split; [|by apply IH].
    intros Hin. apply Hnot. by eapply clipsOf_remove_subset.
  - intros Hnd. destruct (Nat.eqb (fst e) id); cbn; [by apply IH|].
    rewrite Hp. by apply IH.
Qed.

Lemma list_find_clip l id i e :
  list_find (fun e => fst e = id) l = Some (i, e) ->
  audio_phoneme (snd e) = true ->
  fst e = id /\ audio_src (snd e) ∈ clipsOf l.
Proof.
  intros [Hl [Hid _]]%list_find_Some Hp. split; [done|].
  unfold clipsOf. apply list_elem_of_fmap. exists e. split; [done|].
  apply list_elem_of_In, filter_In. split; [|done].
  apply list_elem_of_In. by eapply list_elem_of_lookup_2.
Qed.

(** The clip that ended is not among the clips that go on. *)
Lemma clipsOf_ended l id i e :
  NoDup (clipsOf l) ->
  list_find (fun e => fst e = id) l = Some (i, e) ->
  audio_phoneme (snd e) = true ->
  audio_src (snd e) ∉ clipsOf (List.filter (fun e => negb (Nat.eqb (fst e) id)) l).
Proof.
  revert i. induction l as [|e' l IH]; intros i Hnd Hfind Hp; [done|].
  cbn in Hfind. case_decide as Hid.
  - injection Hfind as <- <-. cbn. rewrite Hid, Nat.eqb_refl. cbn.
    unfold clipsOf in Hnd. cbn in Hnd. rewrite Hp in Hnd. cbn in Hnd.
    apply NoDup_cons in Hnd as [Hnot _].
    intros Hin. apply Hnot. by eapply clipsOf_remove_subset.
  - destruct (list_find _ l) as [[j e'']|] eqn:Hl; [|done].
    injection Hfind as Hi He. subst i e''. cbn.
    destruct (Nat.eqb_spec (fst e') id) as [|_]; [done|]. cbn.
    destruct (list_find_clip l id j e Hl Hp) as [_ Hin].
    unfold clipsOf in Hnd |- *. cbn in Hnd |- *.
    destruct (audio_phoneme (snd e')); cbn in Hnd |- *.
    + apply NoDup_cons in Hnd as [Hnot Hnd].
      apply not_elem_of_cons. split; [|by eapply IH].
      intros Heq. apply Hnot. rewrite <- Heq. exact Hin.
    + by eapply IH.
Qed.

(** The invariant reads the URLs and the playing clips only. *)
Lemma owned_same b b' recorded :
  liveUrls b' = liveUrls b -> revokedUrls b' = revokedUrls b ->
  nextUrl b' = nextUrl b -> playingAudio b' = playingAudio b ->
  owned b recorded -> owned b' recorded.
Proof. unfold owned, phonemeClips. by intros -> -> -> ->. Qed.

Lemma owned_createObjectURL b recorded :
  owned b recorded ->
  owned (snd (createObjectURL b)) recorded
  /\ owned (snd (createObjectURL b)) (Some (fst (createObjectURL b)))
  /\ (fst (createObjectURL b) ∈ liveUrls (snd (createObjectURL b)))
  /\ (fst (createObjectURL b) ∉ phonemeClips (snd (createObjectURL b)))
  /\ (recorded <> Some (fst (createObjectURL b))).
Proof.
  intros (Hlive & Hrev & Hnd & Hdisj & Hrec & Hclips & Hclip).
  assert (Hfresh : nextUrl b ∉ liveUrls b).
  { intros Hin. rewrite Forall_forall in Hlive. specialize (Hlive _ Hin). lia. }
  assert (Hfresh' : nextUrl b ∉ revokedUrls b).
  { intros Hin. rewrite Forall_forall in Hrev. specialize (Hrev _ Hin). lia. }
  assert (Hlive' : Forall (fun u => u < S (nextUrl b)) (nextUrl b :: liveUrls b)).
  { constructor; [lia|]. eapply Forall_impl; [done|]. cbn. lia. }
  assert (Hrev' : Forall (fun u => u < S (nextUrl b)) (revokedUrls b)).
  { eapply Forall_impl; [done|]. cbn. lia. }
  assert (Hdisj' : forall u, u ∈ nextUrl b :: liveUrls b -> u ∉ revokedUrls b).
  { intros u [->|Hu]%elem_of_cons; [done|by apply Hdisj]. }
  unfold owned, phonemeClips. cbn. split_and!; try done.
  - intros u Hu. right. by apply Hrec.
  - intros u Hu. split; [right; by apply Hclip|by apply (Hclip u)].
  - intros u [= <-]. by left.
  - intros u Hu. split; [right; by apply Hclip|].
    intros [= <-]. apply Hfresh. by apply Hclip.
  - by left.
  - intros Hin. apply Hfresh. by apply Hclip.
  - intros ->. apply Hfresh. by apply Hrec.
Qed.

Lemma owned_pause b recorded id :
  owned b recorded -> owned (pause id b) recorded.
Proof.
  intros (Hlive & Hrev & Hnd & Hdisj & Hrec & Hclips & Hclip).
  unfold owned, phonemeClips, pause. cbn. split_and!; try done.
  - by apply clipsOf_remove_NoDup.
  - intros u Hu. apply Hclip. by eapply clipsOf_remove_subset.
Qed.

Lemma phonemeClips_pause b id u :
  u ∉ phonemeClips b -> u ∉ phonemeClips (pause id b).
Proof.
  intros Hu Hin. apply Hu. unfold phonemeClips, pause in Hin. cbn in Hin.
  by eapply clipsOf_remove_subset.
Qed.

Lemma owned_play_replay b recorded id u :
  owned b recorded -> owned (play id (mkAudio u false) b) recorded.
Proof. unfold owned, phonemeClips, play, clipsOf. by cbn. Qed.

Lemma owned_play_clip b recorded id u :
  owned b recorded -> u ∈ liveUrls b -> u ∉ phonemeClips b -> recorded <> Some u ->
  owned (play id (mkAudio u true) b) recorded.
Proof.
  intros (Hlive & Hrev & Hnd & Hdisj & Hrec & Hclips & Hclip) Hu Hnew Hne.
  unfold owned, phonemeClips, play, clipsOf. cbn. split_and!; try done.
  - by apply NoDup_cons.
  - intros v [->|Hv]%elem_of_cons; [done|by apply Hclip].
Qed.

(** Releasing the recording of the session. *)
Lemma owned_revoke_recorded b u :
  owned b (Some u) -> owned (revokeObjectURL u b) None.
Proof.
  intros (Hlive & Hrev & Hnd & Hdisj & Hrec & Hclips & Hclip).
  pose proof (Hrec u eq_refl) as Hu.
  unfold owned, phonemeClips, revokeObjectURL. cbn. split_and!; try done.
  - rewrite Forall_forall in Hlive |- *. intros v [Hv _]%filter_neq_elem.
    by apply Hlive.
  - constructor; [|done]. rewrite Forall_forall in Hlive. by apply Hlive.
  - apply NoDup_cons. split; [by apply Hdisj|done].
  - intros v [Hv Hne]%filter_neq_elem. apply not_elem_of_cons. split; [done|by apply Hdisj].
  - intros v Hv. destruct (Hclip _ Hv) as [Hl Hne]. split; [|done].
    apply filter_neq_elem. split; [done|congruence].
Qed.

(** The end of a clip of [playPhoneme]. *)
Lemma owned_ended b recorded id i e :
  owned b recorded ->
  list_find (fun e => fst e = id) (playingAudio b) = Some (i, e) ->
  audio_phoneme (snd e) = true ->
  owned (revokeObjectURL (audio_src (snd e)) (pause id b)) recorded.
Proof.
  intros (Hlive & Hrev & Hnd & Hdisj & Hrec & Hclips & Hclip) Hfind Hp.
  destruct (list_find_clip _ _ _ _ Hfind Hp) as [_ Hin].
  destruct (Hclip _ Hin) as [Hl Hne].
  pose proof (clipsOf_ended _ _ _ _ Hclips Hfind Hp) as Hgone.
  unfold owned, phonemeClips, revokeObjectURL, pause. cbn. split_and!; try done.
  - rewrite Forall_forall in Hlive |- *. intros v [Hv _]%filter_neq_elem.
    by apply Hlive.
  - constructor; [|done]. rewrite Forall_forall in Hlive. by apply Hlive.
  - apply NoDup_cons. split; [by apply Hdisj|done].
  - intros v [Hv Hne']%filter_neq_elem. apply not_elem_of_cons. split; [done|by apply Hdisj].
  - intros v Hv. apply filter_neq_elem. split; [by apply Hrec|]. intros ->. by subst.
  - by apply clipsOf_remove_NoDup.
  - intros v Hv. split.
    + apply filter_neq_elem. split.
      * apply Hclip. by eapply clipsOf_remove_subset.
      * intros ->. done.
    + apply Hclip. by eapply clipsOf_remove_subset.
Qed.


Lemma processRecording_frame rho cl o s :
  recordedAudioUrl (processRecording rho cl o s) = recordedAudioUrl s
  /\ currentIndex (processRecording rho cl o s) = currentIndex s
  /\ model (processRecording rho cl o s) = model s.
Proof.
  destruct o as [| | |data]; cbn; try done.
  destruct (data_raw data) as [raw|]; [destruct (decide (raw = ""))|];
    destruct (data_phonemes data); cbn; done.
Qed.

Lemma urlsOwned_same w w' :
  liveUrls (browser w') = liveUrls (browser w) ->
  revokedUrls (browser w') = revokedUrls (browser w) ->
  nextUrl (browser w') = nextUrl (browser w) ->
  playingAudio (browser w') = playingAudio (browser w) ->
  recordedAudioUrl (session w') = recordedAudioUrl (session w) ->
  urlsOwned w -> urlsOwned w'.
Proof. unfold urlsOwned. intros ? ? ? ? ->. by apply owned_same. Qed.

Lemma urlsOwned_playPhoneme_audio w :
  urlsOwned w ->
  urlsOwned (snd (playPhoneme_audio w))
  /\ (snd (fst (playPhoneme_audio w)) ∈ liveUrls (browser (snd (playPhoneme_audio w))))
  /\ (snd (fst (playPhoneme_audio w)) ∉ phonemeClips (browser (snd (playPhoneme_audio w))))
  /\ (recordedAudioUrl (session (snd (playPhoneme_audio w)))
        <> Some (snd (fst (playPhoneme_audio w)))).
Proof.
  unfold urlsOwned. intros Hw.
  destruct (owned_createObjectURL _ _ Hw) as (Ho & _ & Hlive & Hnew & Hne).
  unfold playPhoneme_audio. cbn in *.
  destruct (audioRef w) as [prev|]; cbn.
  - split_and!; [|done| |done].
    + eapply owned_same; [..|apply (owned_pause _ _ prev Ho)]; done.
    + by apply (phonemeClips_pause _ prev) in Hnew.
  - split_and!; [|done..]. eapply owned_same; [..|exact Ho]; done.
Qed.

Lemma urlsOwned_fallback phoneme w :
  urlsOwned w -> urlsOwned (playPhoneme_fallback phoneme w).
Proof.
  unfold playPhoneme_fallback.
  destruct (phonemeInfo !! phoneme); by apply urlsOwned_same.
Qed.

Lemma urlsOwned_handler ev w :
  urlsOwned w -> enabled ev w = true -> urlsOwned (handler ev w).
Proof.
  intros Hw Hen. destruct ev; cbn [handler].
  - (* TapRecord *) destruct granted; by eapply urlsOwned_same.
  - (* TapStop *)
    unfold stopRecording. by repeat case_match.
  - (* RecorderStopped *)
    destruct (mediaRecorderRef w) as [r|]; [|done].
    unfold urlsOwned, onstop in *. cbn.
    destruct (owned_createObjectURL _ _ Hw) as (_ & Hnew & _).
    eapply (owned_same (snd (createObjectURL (browser w)))); [done..|exact Hnew].
  - (* AnalyzeAnswer *)
    destruct (analyzeRequest w) as [cl|]; [|done].
    eapply urlsOwned_same; [..|exact Hw]; try done. cbn. apply processRecording_frame.
  - (* TapTryAgain *)
    unfold urlsOwned, resetSentence, releaseRecordedAudio in *.
    destruct (recordedAudioUrl (session w)) as [u|]; cbn.
    + by apply owned_revoke_recorded.
    + done.
  - (* TapNext *)
    unfold urlsOwned, nextSentence, releaseRecordedAudio in *.
    destruct (recordedAudioUrl (session w)) as [u|]; cbn.
    + by apply owned_revoke_recorded.
    + done.
  - (* TapReplay *)
    unfold urlsOwned, replayRecording in *.
    destruct (recordedAudioUrl (session w)) as [u|] eqn:Hu; [|by rewrite Hu].
    destruct (playbackRef w) as [prev|]; cbn; rewrite Hu.
    + apply owned_play_replay.
      eapply owned_same; [..|apply (owned_pause _ _ prev Hw)]; done.
    + apply owned_play_replay. eapply owned_same; [..|exact Hw]; done.
  - by eapply urlsOwned_same.
  - destruct (resultAt (session w) i) as [r|]; [|done].
    destruct (actual r) as [a|]; [|done].
    case_decide; [done|]. by eapply urlsOwned_same.
  - destruct (resultAt (session w) i) as [r|]; [|done]. by eapply urlsOwned_same.
  - destruct (resultAt (session w) i) as [r|]; [|done]. by eapply urlsOwned_same.
  - destruct (resultAt (session w) i) as [r|]; [|done]. by eapply urlsOwned_same.
  - by eapply urlsOwned_same.
  - (* SpeakAnswer *)
    destruct (speakRequests w !! i) as [phoneme|]; [|done].
    assert (Hw' : urlsOwned (setSpeakRequests (delete i (speakRequests w)) w))
      by by eapply urlsOwned_same.
    revert Hw'. generalize (setSpeakRequests (delete i (speakRequests w)) w).
    intros w' Hw'. destruct o; cbn [playPhoneme_resume].
    + by apply urlsOwned_fallback.
    + by apply urlsOwned_fallback.
    + destruct (urlsOwned_playPhoneme_audio w' Hw') as (Ho & _).
      destruct (playPhoneme_audio w') as [[id url] w''].
      by apply urlsOwned_fallback.
    + destruct (urlsOwned_playPhoneme_audio w' Hw') as (Ho & Hlive & Hnew & Hne).
      destruct (playPhoneme_audio w') as [[id url] w'']. cbn in *.
      unfold urlsOwned in *. cbn. by apply owned_play_clip.
  - (* AudioEnded *)
    destruct (list_find _ _) as [[j [id' a]]|] eqn:Hfind; [|done].
    destruct (audio_phoneme a) eqn:Hp.
    + unfold urlsOwned, onended in *. cbn.
      by apply (owned_ended _ _ id j (id', a)).
    + unfold urlsOwned in *. cbn. by apply owned_pause.
  - (* UtteranceEnded *)
    destruct (speechQueue (browser w)); [done|]. by eapply urlsOwned_same.
Qed.

Lemma urlsOwned_initial : urlsOwned initialWorld.
Proof.
  unfold urlsOwned, owned; cbn. split_and!; try done; try constructor.
  all: by intros u H%elem_of_nil.
Qed.

Lemma reachable_urlsOwned w : reachable w -> urlsOwned w.
Proof.
  induction 1 as [|w w' _ IH [ev Hen]]; [apply urlsOwned_initial|].
  unfold urlsOwned, handle. rewrite commit_session, commit_browser.
  by apply urlsOwned_handler.
Qed.

End Resources.

(* ===================================================================== *)
(** ** Release of the recorded audio *)
(* ===================================================================== *)

Section Release.

Lemma reachable_run evs w w' :
  reachable w -> run evs w = Some w' -> reachable w'.
Proof.
  revert w. induction evs as [|ev evs IH]; intros w Hw; cbn.
  - by intros [= <-].
  - destruct (enabled ev w) eqn:Hen; [|done].
    apply IH. eapply reachable_step; [done|]. by constructor.
Qed.






Lemma attemptFailed_reachable : reachable attemptFailed.
Proof.
  apply (reachable_run (attempt ++ [AnalyzeAnswer analyze_not_ok drawsTenth]) initialWorld);
    [constructor | vm_compute; reflexivity].
Defined.



End Release.

(* ===================================================================== *)
(** ** The sentences in use *)
(* ===================================================================== *)

Section Sentences.

Lemma knownSentence_render s :
  currentIndex s < length sentenceList -> knownSentence (render s).
Proof.
  intros Hi. destruct (lookup_lt_is_Some_2 sentenceList (currentIndex s) Hi) as [e He].
  exists (currentIndex s). unfold render, sentenceAt. cbn. by rewrite He.
Qed.

Lemma sentencesKnown_commit a b : sentencesKnown b -> sentencesKnown (commit a b).
Proof.
  intros (Hi & Hm & Hr & Hq). unfold commit. case_decide; [done|].
  split_and!; try done. cbn. by apply knownSentence_render.
Qed.

Lemma sentencesKnown_handler ev w :
  sentencesKnown w -> sentencesKnown (handler ev w).
Proof.
  intros Hw. pose proof Hw as (Hi & Hm & Hr & Hq).
  assert (Hsame : forall w',
    currentIndex (session w') = currentIndex (session w) -> memo w' = memo w ->
    mediaRecorderRef w' = mediaRecorderRef w -> analyzeRequest w' = analyzeRequest w ->
    sentencesKnown w').
  { unfold sentencesKnown. by intros w' -> -> -> ->. }
  destruct ev; cbn [handler].
  - destruct granted; [|by apply Hsame].
    unfold sentencesKnown; cbn. split_and!; try done. by intros r [= <-].
  - unfold stopRecording. destruct (mediaRecorderRef w) as [r|] eqn:Hr'; [|done].
    repeat case_decide; try done.
    unfold sentencesKnown; cbn. split_and!; try done.
    intros r' [= <-]. cbn. by apply Hr.
  - destruct (mediaRecorderRef w) as [r|] eqn:Hr'; [|done].
    unfold sentencesKnown, onstop; cbn. split_and!; try done.
    + intros r' [= <-]. cbn. by apply Hr.
    + intros cl [= <-]. by apply Hr.
  - destruct (analyzeRequest w) as [cl|]; [|done].
    unfold sentencesKnown; cbn. split_and!; try done.
    by rewrite (proj1 (proj2 (processRecording_frame rho cl o (session w)))).
  - unfold resetSentence, releaseRecordedAudio.
    destruct (recordedAudioUrl (session w)); by apply Hsame.
  - assert (Hframe : memo (nextSentence w) = memo w
                     /\ mediaRecorderRef (nextSentence w) = mediaRecorderRef w
                     /\ analyzeRequest (nextSentence w) = analyzeRequest w).
    { unfold nextSentence, releaseRecordedAudio. by destruct (recordedAudioUrl _). }
    destruct Hframe as (Hf1 & Hf2 & Hf3).
    unfold sentencesKnown. rewrite nextSentence_index, Hf1, Hf2, Hf3.
    split_and!; try done. by apply Nat.mod_upper_bound.
  - unfold replayRecording. repeat case_match; by apply Hsame.
  - by apply Hsame.
  - repeat case_match; by apply Hsame.
  - repeat case_match; by apply Hsame.
  - repeat case_match; by apply Hsame.
  - repeat case_match; by apply Hsame.
  - by apply Hsame.
  - destruct (speakRequests w !! i) as [phoneme|]; [|done].
    match goal with |- sentencesKnown (playPhoneme_resume ?p ?o ?x) =>
      destruct (playPhoneme_resume_frame p o x) as (_ & _ & _ & H1 & _ & H2 & H3 & H4) end.
    by apply Hsame.
  - destruct (list_find _ _) as [[? [? a]]|]; [|done].
    destruct (audio_phoneme a); by apply Hsame.
  - destruct (speechQueue (browser w)); [done|]. by apply Hsame.
Qed.

Lemma reachable_sentencesKnown w : reachable w -> sentencesKnown w.
Proof.
  induction 1 as [|w w' _ IH [ev _]].
  - unfold sentencesKnown; cbn. split_and!; try done; [lia|]. by exists 0.
  - by apply sentencesKnown_commit, sentencesKnown_handler.
Qed.

(** The analysis in flight is always for a sentence of the list. *)
Lemma reachable_analysis_known w cl :
  reachable w -> analyzeRequest w = Some cl -> knownSentence cl.
Proof. intros Hw. by apply (reachable_sentencesKnown w Hw). Qed.

End Sentences.

(* ===================================================================== *)
(** ** The analysis and its fallback *)
(* ===================================================================== *)

Section Analysis.

Variable rho : nat -> Q.

Lemma sentenceList_good : Forall goodSentence sentenceList.
Proof. apply (bool_decide_unpack _). vm_compute. exact I. Qed.

Lemma knownSentence_good cl : knownSentence cl -> goodSentence (currentSentence cl).
Proof.
  intros [i Hi]. pose proof sentenceList_good as H.
  rewrite Forall_forall in H. apply H. by eapply list_elem_of_lookup_2.
Qed.

(** The alternates of the table are not empty strings. *)
Lemma substitutions_alternate phoneme subs s :
  substitutions !! phoneme = Some subs -> s ∈ subs -> s <> "".
Proof.
  intros H%substitutions_entry Hs. unfold substitutions_entries in H.
  repeat (apply elem_of_cons in H as [H|H];
    [injection H as -> ->;
     repeat (apply elem_of_cons in Hs as [->|Hs]; [done|]); by apply elem_of_nil in Hs|]).
  by apply elem_of_nil in H.
Qed.

(** One entry of the fabricated comparison. *)
Lemma simulateEntry_spec p k :
  expected (fst (simulateEntry rho p k)) = p
  /\ (actual (fst (simulateEntry rho p k)) = Some p
      \/ exists k', actual (fst (simulateEntry rho p k))
                    = fst (getRandomSubstitution rho p k')).
Proof.
  unfold simulateEntry, bind, Math_random, ret.
  destruct (gt (rho k) (1 # 4)); cbn.
  - split; [done|by left].
  - destruct (getRandomSubstitution rho p (S k)) as [act k'] eqn:E. cbn.
    split; [done|]. right. exists (S k). by rewrite E.
Qed.

(** With draws of [Math.random()], the [actual] of an entry is a
    non-empty string when the expected phoneme is one. *)
Lemma simulateEntry_actual p k :
  (forall j, inUnitInterval (rho j)) -> p <> "" ->
  exists a, actual (fst (simulateEntry rho p k)) = Some a /\ a <> "".
Proof.
  intros Hrho Hp.
  destruct (simulateEntry_spec p k) as [_ [H | [k' H]]]; [by eauto|].
  rewrite H. destruct (substitutions !! p) as [subs|] eqn:Hsubs.
  - destruct (getRandomSubstitution_hit rho k' p subs Hsubs (Hrho k')) as (s & -> & Hs).
    exists s. split; [done|]. by eapply substitutions_alternate.
  - rewrite getRandomSubstitution_miss by done. by eauto.
Qed.

Lemma mapM_cons {A B} (f : A -> Rnd B) x xs k :
  mapM f (x :: xs) k
  = (fst (f x k) :: fst (mapM f xs (snd (f x k))), snd (mapM f xs (snd (f x k)))).
Proof.
  cbn [mapM]. unfold bind at 1.
  destruct (f x k) as [y k1]. unfold bind, ret. cbn [fst snd].
  by destruct (mapM f xs k1).
Qed.

Lemma mapM_simulateEntry_spec ps k :
  map expected (fst (mapM (simulateEntry rho) ps k)) = ps
  /\ Forall (fun r => actual r = Some (expected r)
                      \/ exists k', actual r = fst (getRandomSubstitution rho (expected r) k'))
            (fst (mapM (simulateEntry rho) ps k)).
Proof.
  revert k. induction ps as [|p ps IH]; intros k; [by split|].
  rewrite mapM_cons. cbn [fst map].
  destruct (simulateEntry_spec p k) as [Hexp Hact].
  destruct (IH (snd (simulateEntry rho p k))) as [IHe IHa].
  split; [by rewrite Hexp, IHe|]. constructor; [|done].
  rewrite Hexp. exact Hact.
Qed.

Lemma mapM_simulateEntry_texts ps k :
  (forall j, inUnitInterval (rho j)) -> Forall (fun p => p <> "") ps ->
  exists texts,
    map actual (fst (mapM (simulateEntry rho) ps k)) = map Some texts
    /\ map (fun r => JS.or (actual r) (expected r)) (fst (mapM (simulateEntry rho) ps k))
       = texts
    /\ Forall (fun t => t <> "") texts
    /\ length texts = length ps.
Proof.
  intros Hrho Hps. revert k. induction Hps as [|p ps Hp _ IH]; intros k.
  - by exists [].
  - rewrite mapM_cons. cbn [fst map].
    destruct (simulateEntry_actual p k Hrho Hp) as (a & Ha & Hne).
    destruct (IH (snd (simulateEntry rho p k))) as (texts & H1 & H2 & H3 & H4).
    exists (a :: texts). rewrite H1, H2, Ha. cbn.
    rewrite decide_False by done. split_and!; try done; [by constructor|by rewrite H4].
Qed.

Lemma join_nonempty sep t texts : t <> "" -> JS.join sep (t :: texts) <> "".
Proof.
  intros Ht. unfold JS.join. cbn.
  destruct t as [|a t]; [done|]. by destruct texts.
Qed.

Lemma simulateResults_spec cl s :
  recordingState (simulateResults rho cl s) = RecordingState.results
  /\ results (simulateResults rho cl s) = Some (simulated rho cl)
  /\ rawPhonemes (simulateResults rho cl s)
     = JS.join " " (map (fun r => JS.or (actual r) (expected r)) (simulated rho cl)).
Proof. done. Qed.

Lemma processRecording_failed cl o s :
  analyzeFailed o -> processRecording rho cl o s = simulateResults rho cl s.
Proof. by intros [-> | [-> | ->]]. Qed.

(** The fallback of the analysis. Whatever the failure of the POST to
    /api/analyze (no answer, an answer that is not 2xx, a body that is
    not JSON) and whatever the sentence [currentSentence] of the list the
    analysis runs for, the answer is handled, the lifecycle state becomes
    [results], and the stored comparison is fabricated: one entry per
    expected phoneme of [currentSentence], in order, whose [actual] is the
    expected phoneme or what the substitution heuristic returns for it.
    The raw text stored is made of the [actual] values of these entries,
    joined by single spaces, and is not empty. [processRecording] returns
    a session in every case: there is no failure for its caller to see. *)
Lemma analysis_failure_falls_back (cl : Closure) (o : AnalyzeOutcome) (w : World) :
  analyzeFailed o ->
  knownSentence cl ->
  (forall k, inUnitInterval (rho k)) ->
  analyzeRequest w = Some cl ->
  enabled (AnalyzeAnswer o rho) w = true
  /\ recordingState (session (handle (AnalyzeAnswer o rho) w)) = RecordingState.results
  /\ analyzeRequest (handle (AnalyzeAnswer o rho) w) = None
  /\ exists comparison texts,
       results (session (handle (AnalyzeAnswer o rho) w)) = Some comparison
       /\ map expected comparison = phonemes (currentSentence cl)
       /\ length comparison = length (phonemes (currentSentence cl))
       /\ Forall (fun r => actual r = Some (expected r)
                           \/ exists k, actual r = fst (getRandomSubstitution rho (expected r) k))
                 comparison
       /\ map actual comparison = map Some texts
       /\ rawPhonemes (session (handle (AnalyzeAnswer o rho) w)) = JS.join " " texts
       /\ rawPhonemes (session (handle (AnalyzeAnswer o rho) w)) <> "".
Proof.
  intros Ho Hcl Hrho Hreq.
  destruct (knownSentence_good cl Hcl) as [Hne Hgood].
  unfold handle. rewrite commit_session, commit_analyzeRequest.
  cbn [handler enabled]. rewrite Hreq.
  cbn [session analyzeRequest setAnalyzeRequest setSession].
  rewrite (processRecording_failed cl o _ Ho).
  destruct (simulateResults_spec cl (session w)) as (Hst & Hres & Hraw).
  rewrite Hst, Hres, Hraw.
  split; [done|]. split; [done|]. split; [done|].
  destruct (mapM_simulateEntry_spec (phonemes (currentSentence cl)) 0) as [Hexp Hact].
  destruct (mapM_simulateEntry_texts (phonemes (currentSentence cl)) 0 Hrho Hgood)
    as (texts & Htexts & Hor & Hnonempty & Hlen).
  exists (simulated rho cl), texts. unfold simulated.
  rewrite Hor. split_and!; try done.
  - by rewrite <- Hexp at 2; rewrite length_map.
  - destruct texts as [|t texts].
    + destruct (phonemes (currentSentence cl)); [done|discriminate Hlen].
    + apply join_nonempty. by inversion Hnonempty.
Qed.

End Analysis.

Section Scenarios.

Lemma drawsTenth_inUnitInterval k : inUnitInterval (drawsTenth k).
Proof. unfold inUnitInterval, drawsTenth, Qle, Qlt. simpl. lia. Defined.

(** The POST fails for "I think so.", recorded after a switch of the
    model: nine entries, a raw text, the state [results]. *)
Lemma analysis_failure_think_so :
  analyzeRequest thinkSoUnanswered = Some (mkClosure (sentenceAt 1) wav2vec2)
  /\ recordingState (session (handle (AnalyzeAnswer analyze_rejected drawsTenth)
                                thinkSoUnanswered)) = RecordingState.results
  /\ exists comparison texts,
       results (session (handle (AnalyzeAnswer analyze_rejected drawsTenth)
                           thinkSoUnanswered)) = Some comparison
       /\ length comparison = 9
       /\ rawPhonemes (session (handle (AnalyzeAnswer analyze_rejected drawsTenth)
                                  thinkSoUnanswered)) = JS.join " " texts
       /\ rawPhonemes (session (handle (AnalyzeAnswer analyze_rejected drawsTenth)
                                  thinkSoUnanswered)) <> "".
Proof.
  assert (Hreq : analyzeRequest thinkSoUnanswered = Some (mkClosure (sentenceAt 1) wav2vec2))
    by (vm_compute; reflexivity).
  destruct (analysis_failure_falls_back drawsTenth (mkClosure (sentenceAt 1) wav2vec2)
              analyze_rejected thinkSoUnanswered)
    as (_ & Hst & _ & comparison & texts & Hres & _ & Hlen & _ & _ & Hraw & Hne).
  - left. reflexivity.
  - exists 1. reflexivity.
  - exact drawsTenth_inUnitInterval.
  - exact Hreq.
  - split; [exact Hreq|]. split; [exact Hst|].
    exists comparison, texts. split; [exact Hres|]. split; [exact Hlen|].
    split; [exact Hraw | exact Hne].
Defined.

(** C1 fails on the component for a sentence reached with "Next". The
    first sentence is attempted, "Next" is clicked, the second sentence
    ("I think so.") is attempted and its POST fails. The failure is
    handled, the state becomes [results] and the raw text is not empty,
    but the comparison is fabricated from the expected phonemes of the
    first sentence, not of the current one: the [startRecording] in use
    is still the one of the first render ([useCallback] with [model] as
    its only dependency), and so are the [processRecording] and
    [simulateResults] that its recorder calls. *)
Theorem fallback_fabricates_for_memoised_sentence :
  run secondSentenceTrace initialWorld = Some secondSentenceWorld
  /\ recordingState (session secondSentenceWorld) = RecordingState.results
  /\ sentence (sentenceAt (currentIndex (session secondSentenceWorld))) = "I think so."
  /\ (map expected <$> results (session secondSentenceWorld))
     = Some (phonemes (sentenceAt 0))
  /\ phonemes (sentenceAt 0)
     <> phonemes (sentenceAt (currentIndex (session secondSentenceWorld)))
  /\ rawPhonemes (session secondSentenceWorld) <> "".
Proof.
  assert (Hrun : run secondSentenceTrace initialWorld = Some secondSentenceWorld)
    by (vm_compute; reflexivity).
  split; [exact Hrun|].
  vm_compute. split_and!; (reflexivity || discriminate).
Qed.

(** C2 fails on the component, in the same run: the comparison stored
    while the second sentence, of 9 expected phonemes, is the active one
    has the 12 entries of the first. *)
Theorem analysis_runs_for_memoised_sentence :
  run secondSentenceTrace initialWorld = Some secondSentenceWorld
  /\ reachable secondSentenceWorld
  /\ currentIndex (session secondSentenceWorld) = 1
  /\ length (phonemes (sentenceAt (currentIndex (session secondSentenceWorld)))) = 9
  /\ (length <$> results (session secondSentenceWorld)) = Some 12.
Proof.
  assert (Hrun : run secondSentenceTrace initialWorld = Some secondSentenceWorld)
    by (vm_compute; reflexivity).
  split; [exact Hrun|]. split.
  - exact (reachable_run _ _ _ reachable_initial Hrun).
  - vm_compute. auto.
Qed.

(** After a switch of the model on the second sentence the render that
    made [startRecording] is the current one, and the comparison has
    the 9 entries of the second sentence. *)
Lemma analysis_after_model_switch :
  run secondSentenceSwitchTrace initialWorld = Some secondSentenceSwitchWorld
  /\ currentIndex (session secondSentenceSwitchWorld) = 1
  /\ (map expected <$> results (session secondSentenceSwitchWorld))
     = Some (phonemes (sentenceAt 1)).
Proof. vm_compute. auto. Qed.

(** The comparison of the fallback has the length of the sentence it
    was fabricated for. *)
Lemma simulated_length rho cl :
  length (simulated rho cl) = length (phonemes (currentSentence cl)).
Proof.
  unfold simulated.
  destruct (mapM_simulateEntry_spec rho (phonemes (currentSentence cl)) 0) as [H _].
  by rewrite <- H at 2; rewrite length_map.
Qed.

(** On the path of lines 128-138 the element of [audioRef] is paused
    before the new one plays. *)
Lemma playPhoneme_pauses_previous phoneme w prev :
  audioRef w = Some prev ->
  playingAudio (browser (playPhoneme_resume phoneme speak_playing w))
  = (nextAudio (browser w), mkAudio (nextUrl (browser w)) true)
    :: List.filter (fun e => negb (Nat.eqb (fst e) prev)) (playingAudio (browser w)).
Proof. intros H. cbn. unfold playPhoneme_audio. cbn. by rewrite H. Qed.

(** The fallback of lines 150-159 pauses nothing. *)
Lemma playPhoneme_fallback_pauses_nothing phoneme w :
  playingAudio (browser (playPhoneme_fallback phoneme w)) = playingAudio (browser w).
Proof. unfold playPhoneme_fallback. by destruct (phonemeInfo !! phoneme). Qed.

(** C6 fails on the fallback path. The clip of the first expected
    phoneme plays; the second is asked for and /api/speak fails: its
    example word is given to the synthesiser while the clip goes on, two
    phoneme playbacks at once. *)
Theorem fallback_overlaps_playing_clip :
  run overlapTrace initialWorld = Some overlapWorld
  /\ reachable overlapWorld
  /\ playingAudio (browser overlapWorld) = [(0, mkAudio 1 true)]
  /\ speechQueue (browser overlapWorld) = ["about"]
  /\ phonemeSounds (browser overlapWorld) = 2.
Proof.
  assert (Hrun : run overlapTrace initialWorld = Some overlapWorld)
    by (vm_compute; reflexivity).
  split; [exact Hrun|]. split.
  - exact (reachable_run _ _ _ reachable_initial Hrun).
  - vm_compute. auto.
Qed.

End Scenarios.

(* ===================================================================== *)
(** ** The recorder, the microphone and the transitions *)
(* ===================================================================== *)

Section Recorder.















End Recorder.

(* ===================================================================== *)
(** ** The model, the memoised closure and the answers of the backend *)
(* ===================================================================== *)

Section Memo.

Lemma handler_memo ev w : memo (handler ev w) = memo w.
Proof.
  destruct ev; cbn [handler]; try done.
  - by destruct granted.
  - unfold stopRecording. by repeat case_match.
  - by destruct (mediaRecorderRef w).
  - by destruct (analyzeRequest w).
  - unfold resetSentence, releaseRecordedAudio. by destruct (recordedAudioUrl _).
  - unfold nextSentence, releaseRecordedAudio. by destruct (recordedAudioUrl _).
  - unfold replayRecording. destruct (recordedAudioUrl _); [|done].
    by destruct (playbackRef w).
  - by repeat case_match.
  - by repeat case_match.
  - by repeat case_match.
  - by repeat case_match.
  - destruct (speakRequests w !! i) as [phoneme|]; [|done].
    match goal with |- memo (playPhoneme_resume ?p ?o ?x) = _ =>
      destruct (playPhoneme_resume_frame p o x) as (_ & _ & _ & _ & _ & _ & _ & H) end.
    by rewrite H.
  - destruct (list_find _ _) as [[? [? a]]|]; [|done]. by destruct (audio_phoneme a).
  - by destruct (speechQueue (browser w)).
Qed.

Lemma handler_model ev w :
  model (session (handler ev w))
  = match ev with SelectModel m => m | _ => model (session w) end.
Proof.
  destruct ev; cbn [handler]; try done.
  - by destruct granted.
  - unfold stopRecording. by repeat case_match.
  - by destruct (mediaRecorderRef w).
  - destruct (analyzeRequest w) as [cl|]; [|done]. cbn. apply processRecording_frame.
  - unfold resetSentence, releaseRecordedAudio. by destruct (recordedAudioUrl _).
  - unfold nextSentence, releaseRecordedAudio. by destruct (recordedAudioUrl _).
  - unfold replayRecording. destruct (recordedAudioUrl _); [|done].
    by destruct (playbackRef w).
  - by repeat case_match.
  - by repeat case_match.
  - by repeat case_match.
  - by repeat case_match.
  - destruct (speakRequests w !! i) as [phoneme|]; [|done].
    match goal with |- model (session (playPhoneme_resume ?p ?o ?x)) = _ =>
      destruct (playPhoneme_resume_frame p o x) as (_ & _ & _ & _ & H & _) end.
    by rewrite H.
  - destruct (list_find _ _) as [[? [? a]]|]; [|done]. by destruct (audio_phoneme a).
  - by destruct (speechQueue (browser w)).
Qed.

Lemma handle_memo ev w :
  memo (handle ev w)
  = match ev with
    | SelectModel m =>
        if decide (m = model (session w)) then memo w
        else mkClosure (sentenceAt (currentIndex (session w))) m
    | _ => memo w
    end.
Proof.
  unfold handle, commit. rewrite handler_model.
  destruct ev; try (rewrite decide_True by done; apply handler_memo).
  cbn. destruct (decide (m = model (session w))) as [->|Hne].
  - by rewrite decide_True.
  - by rewrite decide_False.
Qed.

Lemma reachable_memoModel w : reachable w -> memoModel w.
Proof.
  induction 1 as [|w w' _ IH [ev _]]; [done|].
  unfold memoModel in *. rewrite handle_memo.
  unfold handle. rewrite commit_session, handler_model.
  destruct ev; try done. case_decide as Hm; [by rewrite IH|done].
Qed.

(** The sentence and the model that analyses run for are those of the
    render in which [startRecording] was made. Its model is always the
    model selected, but its sentence is only brought up to date by a
    switch to another model: then it becomes the sentence on display.
    Every other event, "Next" included, and a click on the model
    already selected, leave the memoised sentence as it was. *)
Theorem memo_refreshed_by_model_switch_only (ev : Event) (w : World) :
  reachable w ->
  closure_model (memo w) = model (session w)
  /\ closure_model (memo (handle ev w)) = model (session (handle ev w))
  /\ currentSentence (memo (handle ev w))
     = match ev with
       | SelectModel m =>
           if decide (m = model (session w)) then currentSentence (memo w)
           else sentenceAt (currentIndex (session w))
       | _ => currentSentence (memo w)
       end.
Proof.
  intros Hw. pose proof (reachable_memoModel w Hw) as Hm. unfold memoModel in Hm.
  split; [done|]. rewrite handle_memo. unfold handle. rewrite commit_session, handler_model.
  destruct ev; try done. by case_decide; subst.
Qed.

Lemma memo_refreshed_by_model_switch_only_witness :
  currentSentence (memo (handle TapNext attemptFailed)) = currentSentence (memo attemptFailed)
  /\ currentIndex (session (handle TapNext attemptFailed)) = 1.
Proof.
  destruct (memo_refreshed_by_model_switch_only TapNext attemptFailed attemptFailed_reachable)
    as (_ & _ & H).
  split; [exact H|vm_compute; reflexivity].
Defined.

(** An attempt is analysed for the closure memoised when the record
    button is tapped: its sentence, and its model, which is then the
    model selected. A switch of the model while the recording runs
    changes the model of the session, hence what the screen announces,
    but not the request. *)
Theorem attempt_analysed_for_memo (m : ModelType) (w : World) :
  reachable w ->
  recordingState (session w) = RecordingState.idle ->
  exists w',
    run [TapRecord true; SelectModel m; TapStop; RecorderStopped] w = Some w'
    /\ analyzeRequest w' = Some (memo w)
    /\ closure_model (memo w) = model (session w)
    /\ model (session w') = m
    /\ currentIndex (session w') = currentIndex (session w).
Proof.
  intros Hw Hs. pose proof (reachable_memoModel w Hw) as Hm.
  set (w1 := handle (TapRecord true) w).
  set (w2 := handle (SelectModel m) w1).
  set (w3 := handle TapStop w2).
  set (w4 := handle RecorderStopped w3).
  assert (H1 : session w1 = setRecordingState RecordingState.recording (session w)
               /\ mediaRecorderRef w1 = Some (mkRecorder (memo w) rec_recording)).
  { unfold w1, handle. by rewrite commit_session, commit_mediaRecorderRef. }
  destruct H1 as [Hs1 Hr1].
  assert (H2 : session w2 = setModel m (session w1) /\ mediaRecorderRef w2 = mediaRecorderRef w1).
  { unfold w2, handle. by rewrite commit_session, commit_mediaRecorderRef. }
  destruct H2 as [Hs2 Hr2].
  assert (H3 : session w3 = setRecordingState RecordingState.processing (session w2)
               /\ mediaRecorderRef w3 = Some (mkRecorder (memo w) rec_stopping)).
  { unfold w3, handle. rewrite commit_session, commit_mediaRecorderRef.
    cbn [handler]. unfold stopRecording. rewrite Hr2, Hr1.
    rewrite decide_True by (by rewrite Hs2, Hs1).
    by rewrite decide_True. }
  destruct H3 as [Hs3 Hr3].
  assert (H4 : analyzeRequest w4 = Some (memo w)
               /\ model (session w4) = m
               /\ currentIndex (session w4) = currentIndex (session w)).
  { unfold w4, handle. rewrite commit_session, commit_analyzeRequest.
    cbn [handler]. rewrite Hr3. unfold onstop. cbn. by rewrite Hs3, Hs2, Hs1. }
  exists w4. split; [|by destruct H4 as (? & ? & ?)].
  cbn [run].
  assert (E1 : enabled (TapRecord true) w = true) by (cbn; by rewrite Hs).
  rewrite E1. fold w1.
  assert (E2 : enabled (SelectModel m) w1 = true) by done.
  rewrite E2. fold w2.
  assert (E3 : enabled TapStop w2 = true) by (cbn; by rewrite Hs2, Hs1).
  rewrite E3. fold w3.
  assert (E4 : enabled RecorderStopped w3 = true) by (cbn; by rewrite Hr3).
  rewrite E4. by fold w4.
Qed.

Lemma attempt_analysed_for_memo_witness :
  exists w',
    run [TapRecord true; SelectModel wav2vec2; TapStop; RecorderStopped] initialWorld
    = Some w'
    /\ analyzeRequest w' = Some (mkClosure (sentenceAt 0) allosaurus)
    /\ model (session w') = wav2vec2.
Proof.
  destruct (attempt_analysed_for_memo wav2vec2 initialWorld reachable_initial eq_refl)
    as (w' & Hrun & Hreq & _ & Hmodel & _).
  exists w'. split; [exact Hrun|]. split; [exact Hreq | exact Hmodel].
Defined.

(** A 2xx answer is stored as it comes: the comparison of the backend,
    whatever its length, and as raw text [raw] when it is a non-empty
    string, else the [phonemes] joined by single spaces. When the body
    has neither, the comparison of the backend is dropped and the
    fabricated one is stored instead. In every case the request is over
    and the state is [results]. *)
Theorem analysis_success_stored (rho : nat -> Q) (cl : Closure) (data : AnalyzeData)
    (w : World) :
  analyzeRequest w = Some cl ->
  analyzeRequest (handle (AnalyzeAnswer (analyze_json data) rho) w) = None
  /\ recordingState (session (handle (AnalyzeAnswer (analyze_json data) rho) w))
     = RecordingState.results
  /\ match data_raw data, data_phonemes data with
     | Some raw, phonemes =>
         if decide (raw = "") then
           match phonemes with
           | Some ps =>
               results (session (handle (AnalyzeAnswer (analyze_json data) rho) w))
               = Some (data_comparison data)
               /\ rawPhonemes (session (handle (AnalyzeAnswer (analyze_json data) rho) w))
                  = JS.join " " ps
           | None =>
               results (session (handle (AnalyzeAnswer (analyze_json data) rho) w))
               = Some (simulated rho cl)
           end
         else
           results (session (handle (AnalyzeAnswer (analyze_json data) rho) w))
           = Some (data_comparison data)
           /\ rawPhonemes (session (handle (AnalyzeAnswer (analyze_json data) rho) w)) = raw
     | None, Some ps =>
         results (session (handle (AnalyzeAnswer (analyze_json data) rho) w))
         = Some (data_comparison data)
         /\ rawPhonemes (session (handle (AnalyzeAnswer (analyze_json data) rho) w))
            = JS.join " " ps
     | None, None =>
         results (session (handle (AnalyzeAnswer (analyze_json data) rho) w))
         = Some (simulated rho cl)
     end.
Proof.
  intros Hreq. unfold handle. rewrite commit_session, commit_analyzeRequest.
  cbn [handler]. rewrite Hreq.
  cbn [session analyzeRequest setAnalyzeRequest setSession].
  split; [done|]. split; [apply processRecording_results|].
  cbn [processRecording].
  destruct (data_raw data) as [raw|]; [destruct (decide (raw = ""))|];
    by destruct (data_phonemes data).
Qed.

Lemma analysis_success_stored_witness :
  results (session (handle (AnalyzeAnswer
                              (analyze_json (mkData [mkResult "a" (Some "a") true]
                                                    None (Some ["a"; "j"])))
                              drawsHalf) attemptUnanswered))
  = Some [mkResult "a" (Some "a") true]
  /\ rawPhonemes (session (handle (AnalyzeAnswer
                                     (analyze_json (mkData [mkResult "a" (Some "a") true]
                                                           None (Some ["a"; "j"])))
                                     drawsHalf) attemptUnanswered))
     = "a j".
Proof.
  destruct (analysis_success_stored drawsHalf (mkClosure (sentenceAt 0) allosaurus)
              (mkData [mkResult "a" (Some "a") true] None (Some ["a"; "j"]))
              attemptUnanswered) as (_ & _ & H).
  - vm_compute. reflexivity.
  - exact H.
Defined.

(** An empty comparison from the backend is shown as a result, and its
    score is not a number: line 193 divides zero by zero. Without a
    comparison the score is 0. *)
Theorem score_of_empty_comparison (rho : nat -> Q) (cl : Closure) (raw : string) (w : World) :
  analyzeRequest w = Some cl ->
  raw <> "" ->
  resultsShown (session (handle (AnalyzeAnswer (analyze_json (mkData [] (Some raw) None)) rho) w))
  = true
  /\ score (results (session (handle (AnalyzeAnswer
                                        (analyze_json (mkData [] (Some raw) None)) rho) w)))
     = S754_nan
  /\ score None = JS.ofZ 0.
Proof.
  intros Hreq Hraw. unfold handle. rewrite commit_session.
  cbn [handler]. rewrite Hreq.
  cbn [session setAnalyzeRequest setSession processRecording data_raw data_phonemes
       data_comparison].
  rewrite decide_False by done. done.
Qed.

Lemma score_of_empty_comparison_witness :
  score (results (session (handle (AnalyzeAnswer
                                     (analyze_json (mkData [] (Some "x") None)) drawsHalf)
                             attemptUnanswered)))
  = S754_nan.
Proof.
  destruct (score_of_empty_comparison drawsHalf (mkClosure (sentenceAt 0) allosaurus) "x"
              attemptUnanswered) as (_ & H & _).
  - vm_compute. reflexivity.
  - discriminate.
  - exact H.
Defined.

End Memo.

(* ===================================================================== *)
(** ** What is left of an attempt *)
(* ===================================================================== *)

Section Cleared.








(** "Try again" and "Next" release the recording but do not stop its
    replay: an element that replays the recording goes on playing
    after the handler, on a URL that has been released. *)
Theorem replay_outlives_recording (h : World -> World) (id : nat) (u : Url) (w : World) :
  h = resetSentence \/ h = nextSentence ->
  recordedAudioUrl (session w) = Some u ->
  (id, mkAudio u false) ∈ playingAudio (browser w) ->
  ((id, mkAudio u false) ∈ playingAudio (browser (h w)))
  /\ (u ∈ revokedUrls (browser (h w)))
  /\ (u ∉ liveUrls (browser (h w)))
  /\ playbackRef (h w) = playbackRef w.
Proof.
  intros Hh Hu Hin.
  assert (H : browser (h w) = revokeObjectURL u (browser w)
              /\ playbackRef (h w) = playbackRef w).
  { destruct Hh as [-> | ->];
      unfold resetSentence, nextSentence, releaseRecordedAudio; by rewrite Hu. }
  destruct H as [-> ->]. cbn. split_and!; try done.
  - by left.
  - rewrite filter_neq_elem. tauto.
Qed.

Lemma replayingWorld_recording :
  recordedAudioUrl (session replayingWorld) = Some 0
  /\ (0, mkAudio 0 false) ∈ playingAudio (browser replayingWorld).
Proof. split; [vm_compute; reflexivity|]. vm_compute. left. Defined.

Lemma replay_outlives_recording_witness :
  ((0, mkAudio 0 false) ∈ playingAudio (browser (nextSentence replayingWorld)))
  /\ (0 ∈ revokedUrls (browser (nextSentence replayingWorld))).
Proof.
  destruct (replay_outlives_recording nextSentence 0 0 replayingWorld
              (or_intror eq_refl) (proj1 replayingWorld_recording)
              (proj2 replayingWorld_recording)) as (H1 & H2 & _).
  split; [exact H1 | exact H2].
Defined.

End Cleared.

(* ===================================================================== *)
(** ** The fabricated comparison *)
(* ===================================================================== *)

Section Fabricated.

(** No alternate of the table is the symbol it stands for. *)
Lemma substitutions_differ phoneme subs s :
  substitutions !! phoneme = Some subs -> s ∈ subs -> s <> phoneme.
Proof.
  intros H%substitutions_entry Hs. unfold substitutions_entries in H.
  repeat (apply elem_of_cons in H as [H|H];
    [injection H as -> ->;
     repeat (apply elem_of_cons in Hs as [->|Hs]; [done|]); by apply elem_of_nil in Hs|]).
  by apply elem_of_nil in H.
Qed.

(** The [correct] flag of a fabricated entry is drawn apart from its
    [actual] value and says nothing about it. For a symbol of the
    table, when the first draw is at most 0.25 and the third above it,
    the entry is marked correct although its [actual] is an alternate,
    different from the expected phoneme. For any symbol, when the first
    draw is above 0.25 and the second at most 0.25, [actual] is the
    expected phoneme and the entry is marked incorrect. *)
Theorem fabricated_flag_unrelated (rho : nat -> Q) (k : nat) (p : string) :
  (forall subs,
     substitutions !! p = Some subs ->
     gt (rho k) (1 # 4) = false ->
     inUnitInterval (rho (S k)) ->
     gt (rho (S (S k))) (1 # 4) = true ->
     correct (fst (simulateEntry rho p k)) = true
     /\ exists a, actual (fst (simulateEntry rho p k)) = Some a /\ a ∈ subs /\ a <> p)
  /\ (gt (rho k) (1 # 4) = true ->
      gt (rho (S k)) (1 # 4) = false ->
      actual (fst (simulateEntry rho p k)) = Some p
      /\ correct (fst (simulateEntry rho p k)) = false).
Proof.
  split.
  - intros subs Hsubs Hkeep Hr Hright.
    destruct (getRandomSubstitution_hit rho (S k) p subs Hsubs Hr) as (a & Ha & Hin).
    unfold simulateEntry, bind, Math_random, ret. rewrite Hkeep.
    unfold getRandomSubstitution, bind, Math_random, ret in Ha |- *.
    rewrite Hsubs in Ha |- *. cbn in Ha |- *. rewrite Hright.
    split; [done|]. exists a. split; [done|]. split; [done|].
    by eapply substitutions_differ.
  - intros Hkeep Hright.
    unfold simulateEntry, bind, Math_random, ret. rewrite Hkeep. cbn. by rewrite Hright.
Qed.

Lemma fabricated_flag_unrelated_witness :
  correct (fst (simulateEntry (fun k => if decide (k = 2) then 1 # 2 else 1 # 10) "θ" 0))
  = true
  /\ actual (fst (simulateEntry (fun k => if decide (k = 2) then 1 # 2 else 1 # 10) "θ" 0))
     = Some "t".
Proof.
  destruct (fabricated_flag_unrelated
              (fun k => if decide (k = 2) then 1 # 2 else 1 # 10) 0 "θ") as [H _].
  destruct (H ["t"; "s"; "f"]) as (Hc & a & Ha & _ & _).
  - reflexivity.
  - reflexivity.
  - unfold inUnitInterval, Qle, Qlt. simpl. lia.
  - reflexivity.
  - split; [exact Hc|]. vm_compute. reflexivity.
Defined.

End Fabricated.

(* ===================================================================== *)
(** ** The two playback channels *)
(* ===================================================================== *)

Section Channels.

Implicit Types (l : list (nat * Audio)).

Lemma remove_id_elem l id e :
  e ∈ List.filter (fun e => negb (Nat.eqb (fst e) id)) l <-> e ∈ l /\ fst e <> id.
Proof. rewrite !list_elem_of_In, filter_In, negb_true_iff, Nat.eqb_neq. done. Qed.

Lemma remove_id_NoDup l id :
  NoDup (map fst l) ->
  NoDup (map fst (List.filter (fun e => negb (Nat.eqb (fst e) id)) l)).
Proof.
  induction l as [|e l IH]; [done|]. cbn. intros [Hnot Hnd]%NoDup_cons.
  destruct (negb (Nat.eqb (fst e) id)); [|by apply IH]. cbn.
  apply NoDup_cons. split; [|by apply IH].
  intros (e' & He' & Hin)%list_elem_of_fmap. apply Hnot.
  apply list_elem_of_fmap. exists e'. split; [done|].
  by apply remove_id_elem in Hin as [? _].
Qed.

(** In a list with distinct ids, the elements that all have the same id
    are at most one. *)
Lemma same_id_at_most_one l (f : nat * Audio -> bool) c :
  NoDup (map fst l) ->
  (forall e, e ∈ List.filter f l -> fst e = c) ->
  length (List.filter f l) <= 1.
Proof.
  intros Hnd Hall.
  assert (Hnd' : NoDup (map fst (List.filter f l))).
  { clear Hall. induction l as [|e l IH]; [done|]. cbn.
    apply NoDup_cons in Hnd as [Hnot Hnd].
    destruct (f e); [|by apply IH]. cbn. apply NoDup_cons. split; [|by apply IH].
    intros (e' & He' & Hin)%list_elem_of_fmap. apply Hnot.
    apply list_elem_of_fmap. exists e'. split; [done|].
    apply list_elem_of_In. apply list_elem_of_In, filter_In in Hin. tauto. }
  destruct (List.filter f l) as [|e1 [|e2 rest]]; cbn; [lia..|]. exfalso.
  cbn in Hnd'. apply NoDup_cons in Hnd' as [Hnot _]. apply Hnot.
  rewrite (Hall e1), <- (Hall e2); [by left|by right; left|by left].
Qed.

Lemma channels_same w w' :
  playingAudio (browser w') = playingAudio (browser w) ->
  nextAudio (browser w') = nextAudio (browser w) ->
  audioRef w' = audioRef w -> playbackRef w' = playbackRef w ->
  channels w -> channels w'.
Proof. unfold channels. by intros -> -> -> ->. Qed.

Lemma channels_pause w id : channels w -> channels (setBrowser (pause id) w).
Proof.
  intros (Hnd & Hel & Ha & Hp & Hne). unfold channels; cbn.
  split_and!; try done; [by apply remove_id_NoDup|].
  intros id' a [Hin _]%remove_id_elem. by apply Hel.
Qed.

(** A new element that plays on the channel of [playPhoneme], after the
    pause of the element of [audioRef]. *)
Lemma channels_new_clip w u :
  channels w ->
  channels (setBrowser (play (nextAudio (browser w)) (mkAudio u true))
              (setAudioRef (Some (nextAudio (browser w)))
                 (setBrowser (fun b => snd (newAudio b))
                    (match audioRef w with
                     | Some prev => setBrowser (pause prev) w
                     | None => w
                     end)))).
Proof.
  intros (Hnd & Hel & Ha & Hp & Hne).
  assert (Hold : forall id a,
    (id, a) ∈ playingAudio (browser (match audioRef w with
                                     | Some prev => setBrowser (pause prev) w
                                     | None => w end)) ->
    (id, a) ∈ playingAudio (browser w) /\ audio_phoneme a = false).
  { intros id a Hin. destruct (audioRef w) as [prev|] eqn:Hprev.
    - cbn in Hin. apply remove_id_elem in Hin as [Hin Hid]. split; [done|].
      destruct (audio_phoneme a) eqn:Hph; [|done].
      destruct (Hel id a Hin) as [_ H]. rewrite Hph in H. cbn in Hid. congruence.
    - split; [done|]. destruct (audio_phoneme a) eqn:Hph; [|done].
      destruct (Hel id a Hin) as [_ H]. by rewrite Hph in H. }
  assert (Hnd' : NoDup (map fst (playingAudio (browser
                   (match audioRef w with
                    | Some prev => setBrowser (pause prev) w
                    | None => w end))))).
  { destruct (audioRef w); [by apply remove_id_NoDup|done]. }
  assert (Hsame : nextAudio (browser (match audioRef w with
                                      | Some prev => setBrowser (pause prev) w
                                      | None => w end)) = nextAudio (browser w)
                  /\ playbackRef (match audioRef w with
                                  | Some prev => setBrowser (pause prev) w
                                  | None => w end) = playbackRef w).
  { by destruct (audioRef w). }
  destruct Hsame as [Hnext Hpb].
  revert Hold Hnd' Hnext Hpb.
  generalize (match audioRef w with
              | Some prev => setBrowser (pause prev) w
              | None => w end).
  intros x Hold Hnd' Hnext Hpb. unfold channels; cbn. rewrite Hnext, Hpb.
  split_and!.
  - apply NoDup_cons. split; [|done].
    intros ([id a] & Hid & Hin)%list_elem_of_fmap. cbn in Hid. subst id.
    destruct (Hold _ _ Hin) as [Hin' _]. destruct (Hel _ _ Hin') as [Hlt _]. lia.
  - intros id a [[= -> ->]|Hin]%elem_of_cons; [by split; [lia|]|].
    destruct (Hold _ _ Hin) as [Hin' Hph]. destruct (Hel _ _ Hin') as [Hlt H].
    rewrite Hph in H |- *. split; [lia|done].
  - intros id [= <-]. lia.
  - intros id Hid. specialize (Hp id Hid). lia.
  - intros id [= <-] Hid. specialize (Hp _ Hid). lia.
Qed.

Lemma channels_new_silent w :
  channels w ->
  channels (setAudioRef (Some (nextAudio (browser w)))
              (setBrowser (fun b => snd (newAudio b))
                 (match audioRef w with
                  | Some prev => setBrowser (pause prev) w
                  | None => w
                  end))).
Proof.
  intros Hw. pose proof Hw as (Hnd & Hel & Ha & Hp & Hne).
  assert (Hx : channels (match audioRef w with
                         | Some prev => setBrowser (pause prev) w
                         | None => w end)) by (destruct (audioRef w); [by apply channels_pause|done]).
  assert (Hold : forall id a,
    (id, a) ∈ playingAudio (browser (match audioRef w with
                                     | Some prev => setBrowser (pause prev) w
                                     | None => w end)) ->
    audio_phoneme a = false).
  { intros id a Hin. destruct (audioRef w) as [prev|] eqn:Hprev.
    - cbn in Hin. apply remove_id_elem in Hin as [Hin Hid].
      destruct (audio_phoneme a) eqn:Hph; [|done].
      destruct (Hel id a Hin) as [_ H]. rewrite Hph in H. cbn in Hid. congruence.
    - destruct (audio_phoneme a) eqn:Hph; [|done].
      destruct (Hel id a Hin) as [_ H]. by rewrite Hph in H. }
  assert (Hsame : nextAudio (browser (match audioRef w with
                                      | Some prev => setBrowser (pause prev) w
                                      | None => w end)) = nextAudio (browser w)).
  { by destruct (audioRef w). }
  revert Hx Hold Hsame.
  generalize (match audioRef w with
              | Some prev => setBrowser (pause prev) w
              | None => w end).
  intros x (Hnd' & Hel' & Ha' & Hp' & Hne') Hold Hnext. unfold channels; cbn.
  rewrite Hnext in *. split_and!; try done.
  - intros id a Hin. destruct (Hel' id a Hin) as [Hlt H].
    rewrite (Hold id a Hin) in H |- *. split; [lia|done].
  - intros id [= <-]. lia.
  - intros id Hid. specialize (Hp' id Hid). lia.
  - intros id [= <-] Hid. specialize (Hp' _ Hid). lia.
Qed.

Lemma channels_fallback phoneme w : channels w -> channels (playPhoneme_fallback phoneme w).
Proof.
  unfold playPhoneme_fallback. destruct (phonemeInfo !! phoneme); by apply channels_same.
Qed.

Lemma channels_replay w u :
  channels w ->
  channels (setBrowser (play (nextAudio (browser w)) (mkAudio u false))
              (setPlaybackRef (Some (nextAudio (browser w)))
                 (setBrowser (fun b => snd (newAudio b))
                    (match playbackRef w with
                     | Some prev => setBrowser (pause prev) w
                     | None => w
                     end)))).
Proof.
  intros (Hnd & Hel & Ha & Hp & Hne).
  assert (Hold : forall id a,
    (id, a) ∈ playingAudio (browser (match playbackRef w with
                                     | Some prev => setBrowser (pause prev) w
                                     | None => w end)) ->
    (id, a) ∈ playingAudio (browser w) /\ audio_phoneme a = true).
  { intros id a Hin. destruct (playbackRef w) as [prev|] eqn:Hprev.
    - cbn in Hin. apply remove_id_elem in Hin as [Hin Hid]. split; [done|].
      destruct (audio_phoneme a) eqn:Hph; [done|].
      destruct (Hel id a Hin) as [_ H]. rewrite Hph in H. cbn in Hid. congruence.
    - split; [done|]. destruct (audio_phoneme a) eqn:Hph; [done|].
      destruct (Hel id a Hin) as [_ H]. by rewrite Hph in H. }
  assert (Hnd' : NoDup (map fst (playingAudio (browser
                   (match playbackRef w with
                    | Some prev => setBrowser (pause prev) w
                    | None => w end))))).
  { destruct (playbackRef w); [by apply remove_id_NoDup|done]. }
  assert (Hsame : nextAudio (browser (match playbackRef w with
                                      | Some prev => setBrowser (pause prev) w
                                      | None => w end)) = nextAudio (browser w)
                  /\ audioRef (match playbackRef w with
                               | Some prev => setBrowser (pause prev) w
                               | None => w end) = audioRef w).
  { by destruct (playbackRef w). }
  destruct Hsame as [Hnext Hau].
  revert Hold Hnd' Hnext Hau.
  generalize (match playbackRef w with
              | Some prev => setBrowser (pause prev) w
              | None => w end).
  intros x Hold Hnd' Hnext Hau. unfold channels; cbn. rewrite Hnext, Hau.
  split_and!.
  - apply NoDup_cons. split; [|done].
    intros ([id a] & Hid & Hin)%list_elem_of_fmap. cbn in Hid. subst id.
    destruct (Hold _ _ Hin) as [Hin' _]. destruct (Hel _ _ Hin') as [Hlt _]. lia.
  - intros id a [[= -> ->]|Hin]%elem_of_cons; [by split; [lia|]|].
    destruct (Hold _ _ Hin) as [Hin' Hph]. destruct (Hel _ _ Hin') as [Hlt H].
    rewrite Hph in H |- *. split; [lia|done].
  - intros id Hid. specialize (Ha id Hid). lia.
  - intros id [= <-]. lia.
  - intros id Hid [= <-]. specialize (Ha _ Hid). lia.
Qed.

Lemma channels_handler ev w : channels w -> channels (handler ev w).
Proof.
  intros Hw. destruct ev; cbn [handler].
  - destruct granted; by eapply channels_same.
  - unfold stopRecording. repeat case_match; try done; by eapply channels_same.
  - destruct (mediaRecorderRef w); [|done]. by eapply channels_same.
  - destruct (analyzeRequest w); [|done]. by eapply channels_same.
  - unfold resetSentence, releaseRecordedAudio.
    destruct (recordedAudioUrl _); by eapply channels_same.
  - unfold nextSentence, releaseRecordedAudio.
    destruct (recordedAudioUrl _); by eapply channels_same.
  - unfold replayRecording. destruct (recordedAudioUrl (session w)) as [u|]; [|done].
    pose proof (channels_replay w u Hw) as H.
    destruct (playbackRef w); exact H.
  - by eapply channels_same.
  - repeat case_match; try done; by eapply channels_same.
  - repeat case_match; try done; by eapply channels_same.
  - repeat case_match; try done; by eapply channels_same.
  - repeat case_match; try done; by eapply channels_same.
  - by eapply channels_same.
  - destruct (speakRequests w !! i) as [phoneme|]; [|done].
    assert (Hw' : channels (setSpeakRequests (delete i (speakRequests w)) w))
      by by eapply channels_same.
    revert Hw'. generalize (setSpeakRequests (delete i (speakRequests w)) w).
    intros x Hx. destruct o; cbn [playPhoneme_resume].
    + by apply channels_fallback.
    + by apply channels_fallback.
    + pose proof (channels_new_silent x Hx) as H.
      unfold playPhoneme_audio. cbn.
      apply channels_fallback. eapply channels_same; [..|exact H];
        by destruct (audioRef x).
    + pose proof (channels_new_clip x (nextUrl (browser x)) Hx) as H.
      unfold playPhoneme_audio. cbn.
      eapply channels_same; [..|exact H]; by destruct (audioRef x).
  - destruct (list_find _ _) as [[? [? a]]|]; [|done].
    pose proof (channels_pause w id Hw) as H.
    destruct (audio_phoneme a); by eapply channels_same.
  - destruct (speechQueue (browser w)); [done|]. by eapply channels_same.
Qed.

Lemma reachable_channels w : reachable w -> channels w.
Proof.
  induction 1 as [|w w' _ IH [ev _]].
  - unfold channels; cbn.
    split_and!; try done; first [by constructor | by intros ? ? ?%elem_of_nil].
  - eapply channels_same; [..|by apply (channels_handler ev w)];
      unfold handle, commit; by case_decide.
Qed.

(** On each channel at most one element plays, and it is the one its
    ref holds: starting a clip with [playPhoneme] pauses the clip that
    played, starting a replay pauses the replay that played. *)
Theorem one_playback_per_channel (w : World) :
  reachable w ->
  length (playingClips w) <= 1
  /\ length (playingReplays w) <= 1
  /\ (forall e, e ∈ playingClips w -> audioRef w = Some (fst e))
  /\ (forall e, e ∈ playingReplays w -> playbackRef w = Some (fst e)).
Proof.
  intros Hw. destruct (reachable_channels w Hw) as (Hnd & Hel & _).
  assert (Hclips : forall e, e ∈ playingClips w -> audioRef w = Some (fst e)).
  { intros [id a] Hin. apply list_elem_of_In, filter_In in Hin as [Hin Hph].
    apply list_elem_of_In in Hin. destruct (Hel id a Hin) as [_ H].
    cbn in Hph. by rewrite Hph in H. }
  assert (Hreplays : forall e, e ∈ playingReplays w -> playbackRef w = Some (fst e)).
  { intros [id a] Hin. apply list_elem_of_In, filter_In in Hin as [Hin Hph].
    apply list_elem_of_In in Hin. destruct (Hel id a Hin) as [_ H].
    cbn in Hph. apply negb_true_iff in Hph. by rewrite Hph in H. }
  split_and!; try done.
  - destruct (audioRef w) as [c|] eqn:Hc.
    + apply (same_id_at_most_one _ _ c); [done|].
      intros e He. specialize (Hclips e He). congruence.
    + destruct (playingClips w) as [|e rest] eqn:E; [cbn; lia|].
      specialize (Hclips e ltac:(by left)). done.
  - destruct (playbackRef w) as [c|] eqn:Hc.
    + apply (same_id_at_most_one _ _ c); [done|].
      intros e He. specialize (Hreplays e He). congruence.
    + destruct (playingReplays w) as [|e rest] eqn:E; [cbn; lia|].
      specialize (Hreplays e ltac:(by left)). done.
Qed.

Lemma overlapWorld_reachable : reachable overlapWorld.
Proof.
  apply (reachable_run overlapTrace initialWorld); [constructor | vm_compute; reflexivity].
Defined.

Lemma one_playback_per_channel_witness :
  length (playingClips overlapWorld) <= 1 /\ audioRef overlapWorld = Some 0.
Proof.
  destruct (one_playback_per_channel overlapWorld overlapWorld_reachable)
    as (Hlen & _ & Hclips & _).
  split; [exact Hlen|]. apply (Hclips (0, mkAudio 1 true)). vm_compute. left.
Defined.

Lemma filter_remove_id l (f : nat * Audio -> bool) c :
  (forall e, e ∈ l -> f e = true -> fst e <> c) ->
  List.filter f (List.filter (fun e => negb (Nat.eqb (fst e) c)) l) = List.filter f l.
Proof.
  induction l as [|e l IH]; [done|]. intros Hall. cbn.
  assert (IH' : List.filter f (List.filter (fun e => negb (Nat.eqb (fst e) c)) l)
                = List.filter f l).
  { apply IH. intros e' He'. apply Hall. by right. }
  destruct (Nat.eqb_spec (fst e) c) as [Heq|Hne]; cbn.
  - destruct (f e) eqn:Hf; [|done]. exfalso. by apply (Hall e ltac:(by left)).
  - by rewrite IH'.
Qed.

(** The two channels do not disturb each other: a replay of the
    recording leaves the phoneme clip that plays as it is, and the
    answer of /api/speak, whatever it is, leaves the replay that plays
    as it is. *)
Theorem channels_independent (w : World) :
  reachable w ->
  playingClips (handle TapReplay w) = playingClips w
  /\ (forall i o, playingReplays (handle (SpeakAnswer i o) w) = playingReplays w).
Proof.
  intros Hw. destruct (reachable_channels w Hw) as (_ & Hel & _ & _ & Hne).
  unfold playingClips, playingReplays, handle. split.
  - rewrite commit_browser. cbn [handler]. unfold replayRecording.
    destruct (recordedAudioUrl (session w)) as [u|]; [|done].
    destruct (playbackRef w) as [prev|] eqn:Hprev; cbn; [|done].
    apply filter_remove_id. intros [id a] Hin Hph Hid. cbn in *. subst id.
    destruct (Hel prev a Hin) as [_ H]. rewrite Hph in H. by apply (Hne prev).
  - intros i o. rewrite commit_browser. cbn [handler].
    destruct (speakRequests w !! i) as [phoneme|]; [|done].
    assert (Hfb : forall x, playingAudio (browser (playPhoneme_fallback phoneme x))
                            = playingAudio (browser x)).
    { intros x. apply playPhoneme_fallback_pauses_nothing. }
    assert (Hrm : forall prev, audioRef w = Some prev ->
      List.filter (fun e => negb (audio_phoneme (snd e)))
        (List.filter (fun e => negb (Nat.eqb (fst e) prev)) (playingAudio (browser w)))
      = List.filter (fun e => negb (audio_phoneme (snd e))) (playingAudio (browser w))).
    { intros prev Hprev. apply filter_remove_id.
      intros [id a] Hin Hph Hid. cbn in *. subst id.
      destruct (Hel prev a Hin) as [_ H]. apply negb_true_iff in Hph.
      rewrite Hph in H. by apply (Hne prev). }
    destruct o; cbn [playPhoneme_resume]; rewrite ?Hfb; try done.
    + unfold playPhoneme_audio. cbn. rewrite Hfb. cbn.
      destruct (audioRef w) as [prev|] eqn:Hprev; cbn; [by apply Hrm|done].
    + unfold playPhoneme_audio. cbn.
      destruct (audioRef w) as [prev|] eqn:Hprev; cbn; [by apply Hrm|done].
Qed.

Lemma replayingWorld_reachable : reachable replayingWorld.
Proof.
  apply (reachable_run (attempt ++ [AnalyzeAnswer analyze_not_ok drawsHalf; TapReplay])
           initialWorld); [constructor | vm_compute; reflexivity].
Defined.

Lemma channels_independent_witness :
  playingReplays (handle (SpeakAnswer 0 speak_playing)
                    (handle (ClickExpected 0) replayingWorld))
  = [(0, mkAudio 0 false)].
Proof.
  assert (Hw : reachable (handle (ClickExpected 0) replayingWorld)).
  { eapply reachable_step; [exact replayingWorld_reachable|].
    apply (step_event replayingWorld (ClickExpected 0)). vm_compute. reflexivity. }
  destruct (channels_independent (handle (ClickExpected 0) replayingWorld) Hw) as [_ H].
  rewrite (H 0 speak_playing). vm_compute. reflexivity.
Defined.

End Channels.

(* ===================================================================== *)
(** ** The object URLs of the clips *)
(* ===================================================================== *)

Section Clips.

Lemma abandoned_same u w w' :
  liveUrls (browser w') = liveUrls (browser w) ->
  playingAudio (browser w') = playingAudio (browser w) ->
  recordedAudioUrl (session w') = recordedAudioUrl (session w) ->
  abandoned u w -> abandoned u w'.
Proof. unfold abandoned, phonemeClips. by intros -> -> ->. Qed.

Lemma abandoned_pause u id w : abandoned u w -> abandoned u (setBrowser (pause id) w).
Proof.
  intros (Hl & Hr & Hc). unfold abandoned. cbn. split_and!; try done.
  by apply phonemeClips_pause.
Qed.

Lemma abandoned_fallback u phoneme w :
  abandoned u w -> abandoned u (playPhoneme_fallback phoneme w).
Proof.
  unfold playPhoneme_fallback. destruct (phonemeInfo !! phoneme); by apply abandoned_same.
Qed.

Lemma abandoned_playPhoneme_audio u w :
  urlsOwned w -> abandoned u w ->
  abandoned u (snd (playPhoneme_audio w)) /\ u <> snd (fst (playPhoneme_audio w)).
Proof.
  intros (Hlive & _) (Hl & Hr & Hc).
  assert (Hlt : u < nextUrl (browser w)).
  { rewrite Forall_forall in Hlive. by apply Hlive. }
  unfold playPhoneme_audio, abandoned. cbn.
  destruct (audioRef w) as [prev|]; cbn; (split; [|lia]); split_and!; try done.
  - by right.
  - intros Hin. apply Hc. unfold phonemeClips in *. cbn in Hin.
    by eapply clipsOf_remove_subset.
  - by right.
Qed.

Lemma abandoned_handler u ev w :
  urlsOwned w -> abandoned u w -> abandoned u (handler ev w).
Proof.
  intros Hown Hw. pose proof Hw as (Hl & Hr & Hc).
  pose proof Hown as (Hlive & _).
  assert (Hlt : u < nextUrl (browser w)).
  { rewrite Forall_forall in Hlive. by apply Hlive. }
  destruct ev; cbn [handler].
  - destruct granted; by eapply abandoned_same.
  - unfold stopRecording. repeat case_match; try done; by eapply abandoned_same.
  - destruct (mediaRecorderRef w); [|done].
    unfold abandoned, onstop, phonemeClips in *. cbn. split_and!; try done.
    + by right.
    + intros [= Heq]. lia.
  - destruct (analyzeRequest w) as [cl|]; [|done].
    eapply abandoned_same; [| | |exact Hw]; cbn; try done.
    apply processRecording_frame.
  - unfold abandoned, resetSentence, releaseRecordedAudio, phonemeClips in *.
    destruct (recordedAudioUrl (session w)) as [r|]; cbn; split_and!; try done.
    apply filter_neq_elem. split; [done|congruence].
  - unfold abandoned, nextSentence, releaseRecordedAudio, phonemeClips in *.
    destruct (recordedAudioUrl (session w)) as [r|]; cbn; split_and!; try done.
    apply filter_neq_elem. split; [done|congruence].
  - unfold replayRecording. destruct (recordedAudioUrl (session w)) as [r|] eqn:Hrec; [|done].
    assert (Hx : abandoned u (match playbackRef w with
                              | Some prev => setBrowser (pause prev) w
                              | None => w
                              end)).
    { destruct (playbackRef w); [by apply abandoned_pause|done]. }
    revert Hx. generalize (match playbackRef w with
                           | Some prev => setBrowser (pause prev) w
                           | None => w
                           end).
    intros x (H1 & H2 & H3). unfold abandoned, phonemeClips, clipsOf in *.
    cbn. by split_and!.
  - by eapply abandoned_same.
  - repeat case_match; try done; by eapply abandoned_same.
  - repeat case_match; try done; by eapply abandoned_same.
  - repeat case_match; try done; by eapply abandoned_same.
  - repeat case_match; try done; by eapply abandoned_same.
  - by eapply abandoned_same.
  - destruct (speakRequests w !! i) as [phoneme|]; [|done].
    assert (Hx : abandoned u (setSpeakRequests (delete i (speakRequests w)) w))
      by by eapply abandoned_same.
    assert (Hox : urlsOwned (setSpeakRequests (delete i (speakRequests w)) w))
      by by eapply urlsOwned_same.
    revert Hx Hox. generalize (setSpeakRequests (delete i (speakRequests w)) w).
    intros x Hx Hox. destruct o; cbn [playPhoneme_resume].
    + by apply abandoned_fallback.
    + by apply abandoned_fallback.
    + destruct (abandoned_playPhoneme_audio u x Hox Hx) as [H _].
      destruct (playPhoneme_audio x) as [[id url] x']. by apply abandoned_fallback.
    + destruct (abandoned_playPhoneme_audio u x Hox Hx) as [(H1 & H2 & H3) Hne].
      destruct (playPhoneme_audio x) as [[id url] x']. cbn in *.
      unfold abandoned, phonemeClips, clipsOf in *. cbn. split_and!; try done.
      by apply not_elem_of_cons.
  - destruct (list_find _ _) as [[j [id' a]]|] eqn:Hfind; [|done].
    pose proof (abandoned_pause u id w Hw) as Hp.
    destruct (audio_phoneme a) eqn:Hph; [|done].
    destruct (list_find_clip _ _ _ _ Hfind Hph) as [_ Hin]. cbn in Hin.
    destruct Hp as (H1 & H2 & H3).
    unfold abandoned, onended, phonemeClips in *. cbn in *. split_and!; try done.
    apply filter_neq_elem. split; [done|]. intros ->. by apply Hc.
  - destruct (speechQueue (browser w)); [done|]. by eapply abandoned_same.
Qed.

Lemma abandoned_run u evs w w' :
  reachable w -> abandoned u w -> run evs w = Some w' -> abandoned u w'.
Proof.
  revert w. induction evs as [|ev evs IH]; intros w Hw Hab; cbn.
  - by intros [= <-].
  - destruct (enabled ev w) eqn:Hen; [|done].
    apply IH.
    + eapply reachable_step; [done|]. by constructor.
    + pose proof (abandoned_handler u ev w (reachable_urlsOwned w Hw) Hab) as H.
      unfold abandoned, handle in *. by rewrite commit_browser, commit_session.
Qed.

(** The clip is the one of its id. *)
Lemma clipsOf_removed l id a :
  NoDup (map fst l) -> NoDup (clipsOf l) ->
  (id, a) ∈ l -> audio_phoneme a = true ->
  audio_src a ∉ clipsOf (List.filter (fun e => negb (Nat.eqb (fst e) id)) l).
Proof.
  intros Hids Hnd Hin Hph.
  destruct (list_find (fun e => fst e = id) l) as [[j e]|] eqn:Hfind.
  - pose proof Hfind as [Hl [Hid _]]%list_find_Some.
    assert (e = (id, a)) as ->.
    { apply list_elem_of_lookup_2 in Hl. destruct e as [id' a']. cbn in Hid. subst id'.
      apply list_elem_of_lookup_1 in Hl as [j1 Hj1].
      apply list_elem_of_lookup_1 in Hin as [j2 Hj2].
      assert (j1 = j2).
      { eapply NoDup_lookup; [exact Hids|..]; rewrite list_lookup_fmap.
        - by rewrite Hj1.
        - by rewrite Hj2. }
      subst j2. congruence. }
    by apply (clipsOf_ended l id j (id, a)).
  - apply list_find_None in Hfind. rewrite Forall_forall in Hfind.
    by specialize (Hfind _ Hin).
Qed.

(** A clip that is playing when the next clip starts is paused and its
    object URL is never released: whatever happens afterwards, the URL
    stays live. [revokeObjectURL] is only called when a clip ends. *)
Theorem paused_clip_never_released (i id : nat) (u : Url) (evs : list Event) (w w' : World) :
  reachable w ->
  (id, mkAudio u true) ∈ playingAudio (browser w) ->
  enabled (SpeakAnswer i speak_playing) w = true ->
  run evs (handle (SpeakAnswer i speak_playing) w) = Some w' ->
  ((id, mkAudio u true) ∉ playingAudio (browser (handle (SpeakAnswer i speak_playing) w)))
  /\ (u ∈ liveUrls (browser w'))
  /\ (u ∉ revokedUrls (browser w')).
Proof.
  intros Hw Hin Hen Hrun.
  pose proof (reachable_urlsOwned w Hw) as Hown.
  pose proof Hown as (Hlive & _ & _ & _ & _ & Hclips & Hclip).
  destruct (reachable_channels w Hw) as (Hids & Hel & _).
  destruct (Hel id _ Hin) as [_ Href]. cbn in Href.
  assert (Hu : u ∈ phonemeClips (browser w)).
  { unfold phonemeClips, clipsOf. apply list_elem_of_fmap. exists (id, mkAudio u true).
    split; [done|]. apply list_elem_of_In, filter_In. split; [by apply list_elem_of_In|done]. }
  destruct (Hclip u Hu) as [Hul Hur].
  assert (Hlt : u < nextUrl (browser w)).
  { rewrite Forall_forall in Hlive. by apply Hlive. }
  assert (Hw1 : reachable (handle (SpeakAnswer i speak_playing) w)).
  { eapply reachable_step; [done|]. by constructor. }
  assert (Hgone : ((id, mkAudio u true)
                    ∉ playingAudio (browser (handle (SpeakAnswer i speak_playing) w)))
                  /\ abandoned u (handle (SpeakAnswer i speak_playing) w)).
  { unfold abandoned, handle. rewrite commit_browser, commit_session.
    cbn [handler enabled] in *.
    destruct (speakRequests w !! i) as [phoneme|]; [|done].
    cbn [playPhoneme_resume]. unfold playPhoneme_audio. cbn. rewrite Href. cbn.
    split; [|split_and!].
    - intros [[= Heq _]|[_ Hne]%remove_id_elem]%elem_of_cons; [|done].
      destruct (Hel id _ Hin) as [Hlt' _]. lia.
    - by right.
    - done.
    - unfold phonemeClips, clipsOf. cbn. apply not_elem_of_cons. split; [lia|].
      by apply (clipsOf_removed _ id (mkAudio u true)). }
  destruct Hgone as [Hgone Hab]. split; [done|].
  pose proof (abandoned_run u evs _ w' Hw1 Hab Hrun) as (Hl' & _).
  split; [done|].
  pose proof (reachable_urlsOwned w' (reachable_run evs _ w' Hw1 Hrun))
    as (_ & _ & _ & Hdisj & _).
  by apply Hdisj.
Qed.

Lemma clipPlayingWorld_reachable : reachable clipPlayingWorld.
Proof.
  apply (reachable_run (attempt ++ [AnalyzeAnswer analyze_not_ok drawsHalf;
                                    ClickExpected 0; SpeakAnswer 0 speak_playing;
                                    ClickExpected 1]) initialWorld);
    [constructor | vm_compute; reflexivity].
Defined.

Lemma paused_clip_never_released_witness :
  ((0, mkAudio 1 true) ∈ playingAudio (browser clipPlayingWorld))
  /\ (1 ∈ liveUrls (browser (handle (AudioEnded 1)
                               (handle (SpeakAnswer 0 speak_playing) clipPlayingWorld))))
  /\ (1 ∉ revokedUrls (browser (handle (AudioEnded 1)
                                  (handle (SpeakAnswer 0 speak_playing) clipPlayingWorld)))).
Proof.
  assert (Hin : (0, mkAudio 1 true) ∈ playingAudio (browser clipPlayingWorld))
    by (vm_compute; left).
  destruct (paused_clip_never_released 0 0 1 [AudioEnded 1] clipPlayingWorld
              (handle (AudioEnded 1) (handle (SpeakAnswer 0 speak_playing) clipPlayingWorld))
              clipPlayingWorld_reachable Hin) as (_ & Hl & Hr).
  - vm_compute. reflexivity.
  - vm_compute. reflexivity.
  - split; [exact Hin|]. split; [exact Hl | exact Hr].
Defined.

End Clips.
